(** * QIO: a shallow embedding of the effect runtime

    The development follows the repository file by file:
    - [Computation]  : src/sources/Computation.ts, the callback based
                       [fork] of the first generation of the library;
    - [QIO]          : the effect type and its combinators (QIO.ts);
    - [Queue]        : the queue built on [Await] and [PureMutableList].
*)

From Stdlib Require Import List Arith Lia ZArith Bool FunctionalExtensionality.
Import ListNotations.

Set Implicit Arguments.
#[local] Set Warnings "-register-all".

(* ===================================================================== *)
(** * Computation.fork                                                    *)
(* ===================================================================== *)

Module Computation.

(** [enum IOStatus] *)
Inductive IOStatus := FORKED | RESOLVED | REJECTED | CANCELLED.

(** What the scheduler knows about the task handed to [sh.asap]. *)
Inductive TaskState := Scheduled | Ran | Unscheduled.

Section Fork.

Variables E A : Type.

(** One invocation of a callback: [rej(e)] or [res(a)]. *)
Inductive Call := Rej (e : E) | Res (a : A).

(** The elements of the [cancellations] array: the handle returned by
    [sh.asap], and the [Cancel] a computation may return (told apart by a
    number). *)
Inductive Cancel := AsapHandle | CmpCancel (n : nat).

(** How a run of [this.cmp(sh, env, onRej, onRes)] ends. *)
Inductive Finish := Return (c : option nat) | Throw (e : E).

(** The behaviour of a user computation [cmp]: the callbacks it invokes
    while it runs, in order, and the way it ends (returning nothing,
    returning a cancel function, or throwing). *)
Record Cmp := { calls : list Call; finish : Finish }.

(** The variables closed over by [fork], together with what its
    environment observes: the invocations of the caller's [rej] and [res]
    (oldest first) and the cancel functions that have been called. *)
Record State := {
  status : IOStatus;
  cancellations : list Cancel;
  task : TaskState;
  delivered : list Call;
  invoked : list Cancel
}.

(** [const cancellations = new Array(); let status = FORKED;
     cancellations.push(sh.asap(...))] *)
Definition fork : State :=
  {| status := FORKED; cancellations := [AsapHandle]; task := Scheduled;
     delivered := []; invoked := [] |}.

(** [const onRej = e => { status = REJECTED; rej(e) }] *)
Definition onRej (e : E) (st : State) : State :=
  {| status := REJECTED; cancellations := cancellations st; task := task st;
     delivered := delivered st ++ [Rej e]; invoked := invoked st |}.

(** [const onRes = a => { status = RESOLVED; res(a) }] *)
Definition onRes (a : A) (st : State) : State :=
  {| status := RESOLVED; cancellations := cancellations st; task := task st;
     delivered := delivered st ++ [Res a]; invoked := invoked st |}.

(** The computation invoking one of the two callbacks it was given. *)
Definition invoke (c : Call) (st : State) : State :=
  match c with Rej e => onRej e st | Res a => onRes a st end.

(** All the invocations of the list, one after the other. *)
Definition invokeAll (cs : list Call) (st : State) : State :=
  fold_left (fun s c => invoke c s) cs st.

(** The caller's [rej], used directly by the [catch] clause. *)
Definition rej (e : E) (st : State) : State :=
  {| status := status st; cancellations := cancellations st; task := task st;
     delivered := delivered st ++ [Rej e]; invoked := invoked st |}.

Definition push (c : Cancel) (st : State) : State :=
  {| status := status st; cancellations := cancellations st ++ [c];
     task := task st; delivered := delivered st; invoked := invoked st |}.

(** The closure given to [sh.asap]:
    [try { const cancel = this.cmp(sh, env, onRej, onRes)
           if (typeof cancel === 'function') cancellations.push(cancel) }
     catch (e) { rej(e) }] *)
Definition asapBody (cmp : Cmp) (st : State) : State :=
  let st1 := invokeAll (calls cmp) st in
  match finish cmp with
  | Return (Some n) => push (CmpCancel n) st1
  | Return None => st1
  | Throw e => rej e st1
  end.

(** The scheduler reaching the task: it runs once, unless its handle was
    cancelled before. *)
Definition tick (cmp : Cmp) (st : State) : State :=
  match task st with
  | Scheduled =>
      asapBody cmp
        {| status := status st; cancellations := cancellations st;
           task := Ran; delivered := delivered st; invoked := invoked st |}
  | _ => st
  end.

(** Calling one cancel function.  The scheduler's handle unschedules a task
    that has not run and does nothing otherwise. *)
Definition callCancel (st : State) (c : Cancel) : State :=
  {| status := status st; cancellations := cancellations st;
     task := match c, task st with
             | AsapHandle, Scheduled => Unscheduled
             | _, t => t
             end;
     delivered := delivered st; invoked := invoked st ++ [c] |}.

(** The function returned by [fork]:
    [() => { if (status === FORKED) { status = CANCELLED;
                                      cancellations.forEach(_ => _()) } }] *)
Definition cancel (st : State) : State :=
  match status st with
  | FORKED =>
      fold_left callCancel (cancellations st)
        {| status := CANCELLED; cancellations := cancellations st;
           task := task st; delivered := delivered st; invoked := invoked st |}
  | _ => st
  end.

(** What can happen to a forked computation, in any order. *)
Inductive Event := Tick | Invoke (c : Call) | CancelEv.

Definition step (cmp : Cmp) (st : State) (ev : Event) : State :=
  match ev with
  | Tick => tick cmp st
  | Invoke c => invoke c st
  | CancelEv => cancel st
  end.

Definition exec (cmp : Cmp) (evs : list Event) : State :=
  fold_left (step cmp) evs fork.

(** The status an invocation leaves. *)
Definition statusOfCall (c : Call) : IOStatus :=
  match c with Rej _ => REJECTED | Res _ => RESOLVED end.

(** The reading of "first call wins": the continuation has received the
    first callback invocation and nothing else. *)
Definition first_call_wins (cmp : Cmp) (evs : list Event) : Prop :=
  delivered (exec cmp evs) = firstn 1 (delivered (exec cmp evs)).

(** The reading of "cancelling after completion is a no-op": once the
    continuation has received an outcome, the cancel function calls
    nothing and changes nothing. *)
Definition cancel_is_noop (st : State) : Prop := cancel st = st.

End Fork.

Arguments Rej {E A} e.
Arguments Res {E A} a.
Arguments Return {E} c.
Arguments Throw {E} e.
Arguments Tick {E A}.
Arguments CancelEv {E A}.
Arguments Invoke {E A} c.

(** A computation that resolves twice, and one that throws at once. *)
Definition resolvesTwice : Cmp nat nat :=
  {| calls := [Res 1; Res 2]; finish := Return None |}.

Definition throwsAtOnce (E A : Type) (e : E) : Cmp E A :=
  {| calls := []; finish := Throw e |}.

End Computation.

(* ===================================================================== *)
(** * Run-time values and the mutable store                               *)
(* ===================================================================== *)

(** The values that travel between fibers (their exits, the content of an
    [Await]): TypeScript erases their types, so they live in one type.
    [VLeft]/[VRight] are the two cases of [Either], [VList] is the
    immutable [List] of standard-data-structures, [VArr] a JS array. *)
Inductive Val : Type :=
| VUndef
| VBool (b : bool)
| VNum (n : nat)
| VLeft (v : Val)
| VRight (v : Val)
| VList (l : list Val)
| VArr (l : list Val).

(** The immutable [List] of standard-data-structures, as far as the
    sources use it: [prepend] puts an element in front, [asArray] lists
    the elements from the head (this is the reading under which
    [QIO.par], which reverses the array of a list built by [prepend],
    returns its results in the order of its input). *)
Module ImmList.

Definition empty {A} : list A := [].

Definition prepend {A} (l : list A) (a : A) : list A := a :: l.

Definition asArray {A} (l : list A) : list A := l.

Definition isEmpty {A} (l : list A) : bool :=
  match l with [] => true | _ => false end.

End ImmList.

(** [Array.prototype.slice(start, end)] on integer arguments: a negative
    index counts from the end, and both are clamped to the array. *)
Definition relIndex (len : nat) (i : Z) : nat :=
  if (i <? 0)%Z then Z.to_nat (Z.max (Z.of_nat len + i) 0)
  else Nat.min (Z.to_nat i) len.

Definition slice {A} (start end_ : Z) (l : list A) : list A :=
  let k := relIndex (length l) start in
  let final := relIndex (length l) end_ in
  firstn (final - k) (skipn k l).

(** [Await] and [Fiber] objects are references into the tables of the
    interpreter. *)
Record Await := { awaitId : nat }.
Record Fiber := { id : nat }.

(** The JS heap reachable from the thunks of this development: the cells
    of the mutable lists (of values, and of [Await]s) and one counter. *)
Record Store := {
  valCells : list (list Val);
  awaitCells : list (list Await);
  counter : nat
}.

Definition emptyStore : Store :=
  {| valCells := []; awaitCells := []; counter := 0 |}.

(** Replace the [n]-th element of a list ([l] itself when out of range). *)
Fixpoint setNth {A} (n : nat) (x : A) (l : list A) : list A :=
  match n, l with
  | _, [] => []
  | O, _ :: r => x :: r
  | S m, y :: r => y :: setNth m x r
  end.

(** The element types a [PureMutableList] is used at. *)
Class Elem (A : Type) := {
  cells : Store -> list (list A);
  setCells : list (list A) -> Store -> Store
}.

#[export] Instance Elem_Val : Elem Val := {|
  cells := valCells;
  setCells := fun c s =>
    {| valCells := c; awaitCells := awaitCells s; counter := counter s |}
|}.

#[export] Instance Elem_Await : Elem Await := {|
  cells := awaitCells;
  setCells := fun c s =>
    {| valCells := valCells s; awaitCells := c; counter := counter s |}
|}.

(** The result of running a thunk: a value, or a thrown one. *)
Inductive Outcome (A : Type) := Returns (a : A) | Throws (e : Val).
Arguments Throws {A} e.

(** A JS function of no argument that may read and write the store. *)
Definition Thunk (A : Type) := Store -> Store * Outcome A.

(* ===================================================================== *)
(** * QIO                                                                 *)
(* ===================================================================== *)

Module QIO.

(** [IRuntime] and its scheduler (ts-scheduler): there is one of each. *)
Inductive IScheduler := TheScheduler.
Record IRuntime := { scheduler : IScheduler }.
Definition theRuntime : IRuntime := {| scheduler := TheScheduler |}.

(** What the function given to [asyncIO] does before it returns its
    [ICancellable]: it hands one thunk to the scheduler. *)
Inductive Reg (X : Type) :=
| RegDelay (f : X) (ms : nat)
| RegAsap (f : X).

Definition regMap {X Y} (g : X -> Y) (r : Reg X) : Reg Y :=
  match r with
  | RegDelay f ms => RegDelay (g f) ms
  | RegAsap f => RegAsap (g f)
  end.

(** Modelled from the spec: the instruction set and the evaluation loop of
    the interpreter (section 4.2 and 4.3); Instructions.ts and the fiber
    evaluator are not among the sources.  An effect is kept in the form
    the evaluation loop brings it to: the instruction that runs next,
    holding what the continuation stack holds for it.  [Constant] and
    [Reject] are the two ways of finishing; every other constructor is an
    instruction that touches the store, the environment, the runtime, the
    scheduler, a fiber or an [Await], followed by the rest of the effect.
    [Chain], [Map], [Catch] and [Provide] push their frame onto the
    continuation: they are the functions [chain], [map], [catch] and
    [provide] below.  [Diverge] stands for a loop of the source that does
    not end. *)
Inductive QIO (A : Type) : Type :=
| Constant (a : A)
| Reject (e : Val)
| Try (cb : Store -> Store * QIO A)
| Access (cb : Val -> QIO A)
| Runtime (k : IRuntime -> QIO A)
| Fork (io : QIO Val) (runtime : IRuntime) (k : Fiber -> QIO A)
| Async (reg : Reg (QIO A))
| Never
| Diverge
| AwaitOf (k : Await -> QIO A)
| AwaitFlag (aw : Await) (k : bool -> QIO A)
| AwaitPut (aw : Await) (exit : Val) (k : QIO A)
| AwaitGet (aw : Await) (k : option Val -> QIO A)
| FiberAwait (f : Fiber) (k : option Val -> QIO A)
| FiberAbort (f : Fiber) (k : QIO A).

Arguments Reject {A} e.
Arguments Never {A}.
Arguments Diverge {A}.
Arguments Fork {A} io runtime k.
Arguments AwaitOf {A} k.
Arguments AwaitFlag {A} aw k.
Arguments AwaitPut {A} aw exit k.
Arguments AwaitGet {A} aw k.
Arguments FiberAwait {A} f k.
Arguments FiberAbort {A} f k.
Arguments Access {A} cb.
Arguments Runtime {A} k.

(** [Chain(eff, k)]: success, evaluate [k a]; failure, propagate. *)
Fixpoint chain {A B} (fa : QIO A) (aFb : A -> QIO B) : QIO B :=
  match fa with
  | Constant a => aFb a
  | Reject e => Reject e
  | Try cb => Try (fun s => let (s', q) := cb s in (s', chain q aFb))
  | Access cb => Access (fun r => chain (cb r) aFb)
  | Runtime k => Runtime (fun rt => chain (k rt) aFb)
  | Fork io rt k => Fork io rt (fun f => chain (k f) aFb)
  | Async reg => Async (regMap (fun q => chain q aFb) reg)
  | Never => Never
  | Diverge => Diverge
  | AwaitOf k => AwaitOf (fun aw => chain (k aw) aFb)
  | AwaitFlag aw k => AwaitFlag aw (fun b => chain (k b) aFb)
  | AwaitPut aw exit k => AwaitPut aw exit (chain k aFb)
  | AwaitGet aw k => AwaitGet aw (fun x => chain (k x) aFb)
  | FiberAwait f k => FiberAwait f (fun x => chain (k x) aFb)
  | FiberAbort f k => FiberAbort f (chain k aFb)
  end.

(** [Catch(eff, h)]: success, propagate; failure [e], evaluate [h e]. *)
Fixpoint catch {A} (fa : QIO A) (aFe : Val -> QIO A) : QIO A :=
  match fa with
  | Constant a => Constant a
  | Reject e => aFe e
  | Try cb => Try (fun s => let (s', q) := cb s in (s', catch q aFe))
  | Access cb => Access (fun r => catch (cb r) aFe)
  | Runtime k => Runtime (fun rt => catch (k rt) aFe)
  | Fork io rt k => Fork io rt (fun f => catch (k f) aFe)
  | Async reg => Async (regMap (fun q => catch q aFe) reg)
  | Never => Never
  | Diverge => Diverge
  | AwaitOf k => AwaitOf (fun aw => catch (k aw) aFe)
  | AwaitFlag aw k => AwaitFlag aw (fun b => catch (k b) aFe)
  | AwaitPut aw exit k => AwaitPut aw exit (catch k aFe)
  | AwaitGet aw k => AwaitGet aw (fun x => catch (k x) aFe)
  | FiberAwait f k => FiberAwait f (fun x => catch (k x) aFe)
  | FiberAbort f k => FiberAbort f (catch k aFe)
  end.

(** [Provide(eff, r)]: [r] is the environment for the duration of [eff]. *)
Fixpoint provide {A} (fa : QIO A) (r1 : Val) : QIO A :=
  match fa with
  | Constant a => Constant a
  | Reject e => Reject e
  | Try cb => Try (fun s => let (s', q) := cb s in (s', provide q r1))
  | Access cb => provide (cb r1) r1
  | Runtime k => Runtime (fun rt => provide (k rt) r1)
  | Fork io rt k => Fork io rt (fun f => provide (k f) r1)
  | Async reg => Async (regMap (fun q => provide q r1) reg)
  | Never => Never
  | Diverge => Diverge
  | AwaitOf k => AwaitOf (fun aw => provide (k aw) r1)
  | AwaitFlag aw k => AwaitFlag aw (fun b => provide (k b) r1)
  | AwaitPut aw exit k => AwaitPut aw exit (provide k r1)
  | AwaitGet aw k => AwaitGet aw (fun x => provide (k x) r1)
  | FiberAwait f k => FiberAwait f (fun x => provide (k x) r1)
  | FiberAbort f k => FiberAbort f (provide k r1)
  end.


(** ** The static constructors of QIO.ts *)

(** [QIO.of(value) = new QIO(Tag.Constant, value)] *)
Definition of_ {A} (value : A) : QIO A := Constant value.

(** [QIO.reject(error) = new QIO(Tag.Reject, error)] *)
Definition reject {A} (error : Val) : QIO A := Reject error.

(** [QIO.never() = new QIO(Tag.Never, undefined)] *)
Definition never {A} : QIO A := Never.

(** [QIO.resume(cb) = new QIO(Tag.Try, cb)]: run the thunk; a thrown
    value becomes a failure. *)
Definition resume {A} (cb : Thunk A) : QIO A :=
  Try (fun s =>
    match cb s with
    | (s', Returns a) => (s', Constant a)
    | (s', Throws e) => (s', Reject e)
    end).

(** [QIO.lift(cb) = QIO.resume(cb)] *)
Definition lift {A} (cb : Thunk A) : QIO A := resume cb.

(** [QIO.try(cb) = QIO.lift(cb)] *)
Definition try {A} (cb : Thunk A) : QIO A := lift cb.

(** A thunk that touches nothing and returns [a]. *)
Definition pure {A} (a : A) : Thunk A := fun s => (s, Returns a).

(** [QIO.map(fa, ab) = new QIO(Tag.Map, fa, ab)]: transform the success
    value. *)
Definition map {A B} (fa : QIO A) (ab : A -> B) : QIO B :=
  chain fa (fun a => Constant (ab a)).

(** [QIO.access(cb) = new QIO(Tag.Access, cb)] *)
Definition access {A} (cb : Val -> A) : QIO A :=
  Access (fun r => Constant (cb r)).

(** [QIO.env() = QIO.access(Id)] *)
Definition env : QIO Val := access (fun r => r).

(** [QIO.runtime() = new QIO(Tag.Runtime)] *)
Definition runtime : QIO IRuntime := Runtime (fun rt => Constant rt).

(** [QIO.flatten(qio) = qio.chain(Id)] *)
Definition flatten {A} (qio : QIO (QIO A)) : QIO A := chain qio (fun x => x).

(** [QIO.flattenM(qio) = QIO.flatten(UIO(qio))] *)
Definition flattenM {A} (qio : Thunk (QIO A)) : QIO A := flatten (lift qio).

(** [QIO.accessM(cb) = QIO.flatten(QIO.access(cb))] *)
Definition accessM {A} (cb : Val -> QIO A) : QIO A := flatten (access cb).

(** [QIO.call(fn, ...args)]: the same as [fn(...args)], evaluated by the
    interpreter. *)
Definition call {T A} (fn : T -> QIO A) (args : T) : QIO A := fn args.

(** [QIO.encase(cb) = (...t) => QIO.lift(() => cb(...t))] *)
Definition encase {T A} (cb : T -> Thunk A) : T -> QIO A :=
  fun t => lift (cb t).

(** [QIO.if(cond, left, right) = cond ? left : right] *)
Definition if_ {A} (cond : bool) (left right : QIO A) : QIO A :=
  if cond then left else right.

(** [QIO.asyncIO(cb) = new QIO(Tag.Async, cb)].  The two callbacks resume
    the suspended effect: [rej] with a failure, [res] with a success. *)
Definition asyncIO {A}
  (cb : (Val -> QIO A) -> (A -> QIO A) -> Reg (QIO A)) : QIO A :=
  Async (cb (fun e => Reject e) (fun a => Constant a)).

(** [QIO.asyncUIO(cb) = QIO.asyncIO((rej, res) => cb(res))] *)
Definition asyncUIO {A} (cb : (A -> QIO A) -> Reg (QIO A)) : QIO A :=
  asyncIO (fun rej res => cb res).

(** [scheduler.delay(f, ms, ...args)] and [scheduler.asap(f, ...args)] of
    ts-scheduler: run [f(...args)] after [ms], or on the next tick. *)
Definition delay_ {X T} (sh : IScheduler) (f : X -> T) (ms : nat) (x : X)
  : Reg T := RegDelay (f x) ms.

Definition asap {X T} (sh : IScheduler) (f : X -> T) (x : X) : Reg T :=
  RegAsap (f x).

(** The exits of fibers are boxed into [Val]. *)
Class ToVal (A : Type) := toVal : A -> Val.
#[export] Instance ToVal_Val : ToVal Val := fun v => v.
#[export] Instance ToVal_bool : ToVal bool := VBool.
#[export] Instance ToVal_unit : ToVal unit := fun _ => VUndef.
#[export] Instance ToVal_array : ToVal (list Val) := VArr.

(** [QIO.fork(io, runtime) = new QIO(Tag.Fork, io, runtime)] *)
Definition fork_ {A} `{ToVal A} (io : QIO A) (runtime : IRuntime)
  : QIO Fiber := Fork (map io toVal) runtime (fun f => Constant f).

(** [Either.fold(seed, left, right)] of standard-data-structures. *)
Definition Either_fold {T} (seed : T) (l r : Val -> T) (exit : Val) : T :=
  match exit with
  | VLeft e => l e
  | VRight a => r a
  | _ => seed
  end.

(** [QIO.fromEither(exit) = exit.fold(QIO.never(), QIO.reject, QIO.of)] *)
Definition fromEither (exit : Val) : QIO Val :=
  Either_fold never reject of_ exit.

(** [QIO.void() = QIO.of(void 0)] *)
Definition void_ : QIO unit := of_ tt.

(** ** The methods of QIO.ts *)

(** [this.chain(aFb) = QIO.chain(this, aFb)] is [chain] above;
    [this.map(ab)] is [map]; [this.catch(aFb)] is [catch];
    [this.provide(r1) = new QIO(Tag.Provide, this, r1)] is [provide]. *)

(** [this.and(aFb) = this.chain(() => aFb)] *)
Definition and {A B} (this : QIO A) (aFb : QIO B) : QIO B :=
  chain this (fun _ => aFb).

(** [this.const(a) = this.and(QIO.of(a))] *)
Definition const {A B} (this : QIO A) (a : B) : QIO B := and this (of_ a).

(** [this.void = this.const(undefined)] *)
Definition void {A} (this : QIO A) : QIO unit := const this tt.

(** [this.addEnv() = QIO.env().and(this)] *)
Definition addEnv {A} (this : QIO A) : QIO A := and env this.

(** [this.tap(io) = this.chain(_ => io(_).const(_))] *)
Definition tap {A B} (this : QIO A) (io : A -> QIO B) : QIO A :=
  chain this (fun x => const (io x) x).

(** [this.do(io) = this.chain(_ => io.const(_))] *)
Definition do {A B} (this : QIO A) (io : QIO B) : QIO A :=
  chain this (fun x => const io x).

(** [this.zipWith(that, c) = this.chain(a1 => that.map(a2 => c(a1, a2)))] *)
Definition zipWith {A1 A2 C} (this : QIO A1) (that : QIO A2)
  (c : A1 -> A2 -> C) : QIO C :=
  chain this (fun a1 => map that (fun a2 => c a1 a2)).

(** [this.zip(that) = this.zipWith(that, (a, b) => [a, b])] *)
Definition zip {A1 A2} (this : QIO A1) (that : QIO A2) : QIO (A1 * A2) :=
  zipWith this that (fun a b => (a, b)).

(** [this.zipWithM(that, c) = QIO.flatten(this.zipWith(that, c))] *)
Definition zipWithM {A1 A2 A3} (this : QIO A1) (that : QIO A2)
  (c : A1 -> A2 -> QIO A3) : QIO A3 :=
  flatten (zipWith this that c).

(** [this.asEither = this.map(Either.right).catch(_ => QIO.of(Either.left(_)))] *)
Definition asEither (this : QIO Val) : QIO Val :=
  catch (map this VRight) (fun e => of_ (VLeft e)).

(** [this.fork = QIO.env().zipWithM(QIO.runtime(),
                   (ENV, RTM) => QIO.fork(this.provide(ENV), RTM))] *)
Definition fork {A} `{ToVal A} (this : QIO A) : QIO Fiber :=
  zipWithM env runtime (fun ENV RTM => fork_ (provide this ENV) RTM).

(** [this.forkWith(runtime) =
      QIO.env().chain(ENV => QIO.fork(this.provide(ENV), runtime))] *)
Definition forkWith {A} `{ToVal A} (this : QIO A) (runtime : IRuntime)
  : QIO Fiber :=
  chain env (fun ENV => fork_ (provide this ENV) runtime).

(** [QIO.timeout(value, duration) = QIO.runtime().chain(RTM =>
      QIO.asyncUIO(res => RTM.scheduler.delay(res, duration, value)))] *)
Definition timeout {A} (value : A) (duration : nat) : QIO A :=
  chain runtime (fun RTM =>
    asyncUIO (fun res => delay_ (scheduler RTM) res duration value)).

(** [this.delay(duration) = QIO.timeout(this, duration).chain(Id)] *)
Definition delay {A} (this : QIO A) (duration : nat) : QIO A :=
  chain (timeout this duration) (fun x => x).


(** ** Await and Fiber, as the combinators below use them *)

(** Modelled from the spec: [Await] (Await.ts is not among the sources),
    the single-assignment placeholder of section 2 (first write wins;
    readers suspend until assignment), a one-shot latch.  [of]
    constructs an empty [Await].  [set(io)] succeeds at most once: a
    later [set] returns false and does nothing; the first one marks the
    [Await], evaluates [io], stores its exit, resumes every waiter with
    it and returns true.  [get] resumes with the stored exit, and waits
    for it when there is none yet.  The effect given to [set] is so
    evaluated once and the observers share its exit, which is what
    sections 4.3 and 8 (property 6, scenario S3) and the documentation of
    [once] in QIO.ts require; the sentence of section 4.4 that gives each
    caller of [get] an evaluation of its own contradicts them and is not
    followed. *)
Module Await.

Definition of_ : QIO Await := AwaitOf (fun aw => Constant aw).

Definition set {A} `{ToVal A} (this : Await) (io : QIO A) : QIO bool :=
  AwaitFlag this (fun isSet =>
    if isSet then Constant false
    else chain (asEither (map io toVal))
               (fun exit => AwaitPut this exit (Constant true))).

Definition get (this : Await) : QIO Val :=
  AwaitGet this (fun exit =>
    match exit with
    | Some e => fromEither e
    | None => never
    end).

End Await.

(** Modelled from the spec: the fiber handle (internals/Fiber.ts is not
    among the sources), section 4.3.  [abort] is the cancellation
    protocol; [await] resumes with [None] if the fiber was aborted and
    with its exit otherwise; [join] is [await] followed by propagation. *)
Module Fiber.

Definition abort (this : Fiber) : QIO unit := FiberAbort this (Constant tt).

Definition await (this : Fiber) : QIO (option Val) :=
  FiberAwait this (fun exit => Constant exit).

Definition join (this : Fiber) : QIO Val :=
  chain (await this) (fun exit =>
    match exit with
    | Some e => fromEither e
    | None => never
    end).

End Fiber.

(** [this.once = this.env.chain(env =>
      Await.of().map(AWT => AWT.set(this.provide(env)).and(AWT.get)))] *)
Definition once (this : QIO Val) : QIO (QIO Val) :=
  chain env (fun env =>
    map Await.of_ (fun AWT => and (Await.set AWT (provide this env)) (Await.get AWT))).

(** [this.raceWith(that, cb1, cb2)] *)
Definition raceWith (this that : QIO Val)
  (cb1 cb2 : Val -> Fiber -> QIO Val) : QIO Val :=
  chain Await.of_ (fun done =>
    chain (zip (fork this) (fork that)) (fun '(L, R) =>
      let resume1 :=
        chain (Fiber.await L) (fun exit =>
          match exit with
          | Some value => Await.set done (cb1 value R)
          | None => of_ true
          end) in
      let resume2 :=
        chain (Fiber.await R) (fun exit =>
          match exit with
          | Some value => Await.set done (cb2 value L)
          | None => of_ true
          end) in
      and (and (fork resume1) (fork resume2)) (Await.get done))).

(** [this.race(that) = this.raceWith(that,
        (E, F) => F.abort.const(E), (E, F) => F.abort.const(E))
      .chain(E => QIO.fromEither(E))] *)
Definition race (this that : QIO Val) : QIO Val :=
  chain
    (raceWith this that
       (fun E F => const (Fiber.abort F) E)
       (fun E F => const (Fiber.abort F) E))
    (fun E => fromEither E).

(** [E.biMap(l, r).reduce(Id, Id)] on an [Either] of effects. *)
Definition Either_biMap_reduce (l r : Val -> QIO Val) (E : Val) : QIO Val :=
  Either_fold never l r E.

(** [this.zipWithPar(that, c)] *)
Definition zipWithPar (this that : QIO Val) (c : Val -> Val -> Val)
  : QIO Val :=
  raceWith this that
    (fun E F =>
       Either_biMap_reduce
         (fun cause => and (Fiber.abort F) (reject cause))
         (fun a1 => map (Fiber.join F) (fun a2 => c a1 a2)) E)
    (fun E F =>
       Either_biMap_reduce
         (fun cause => and (Fiber.abort F) (reject cause))
         (fun a2 => map (Fiber.join F) (fun a1 => c a1 a2)) E).

(** The immutable [List] when it is the value of a forked effect. *)
Definition vprepend (x y : Val) : Val :=
  match x with
  | VList l => VList (ImmList.prepend l y)
  | _ => x
  end.

Definition vasArray (x : Val) : list Val :=
  match x with
  | VList l => ImmList.asArray l
  | _ => []
  end.

(** [QIO.par(ios) = ios.reduce(
        (a, b) => a.zipWithPar(b, (x, y) => x.prepend(y)),
        QIO.env().and(QIO.lift(() => List.empty())))
      .map(_ => _.asArray.reverse())] *)
Definition par (ios : list (QIO Val)) : QIO (list Val) :=
  map
    (fold_left
       (fun a b => zipWithPar a b (fun x y => vprepend x y))
       ios
       (and env (lift (pure (VList ImmList.empty)))))
    (fun x => rev (vasArray x)).

(** [QIO.seq(ios) = ios.reduce(
        (fList, f) => fList.chain(list => f.map(value => list.prepend(value))),
        QIO.lift(() => List.empty()).addEnv())
      .map(_ => _.asArray)] *)
Definition seq {A} (ios : list (QIO A)) : QIO (list A) :=
  map
    (fold_left
       (fun fList f =>
          chain fList (fun list => map f (fun value => ImmList.prepend list value)))
       ios
       (addEnv (lift (pure ImmList.empty))))
    (fun x => ImmList.asArray x).

(** The list handed to the recursive call of [itar] in [parN], and the
    chunk handed to [par]. *)
Definition itarRest {A} (N : Z) (ios : list A) : list A :=
  slice N (Z.of_nat (length ios)) ios.

Definition itarChunk {A} (N : Z) (ios : list A) : list A :=
  slice 0 N ios.

(** [const itar = list => QIO.if(list.length === 0, QIO.of([]),
        QIO.par(list.slice(0, N)).chain(l1 =>
          itar(list.slice(N, list.length)).map(l2 => l1.concat(l2))))].
    The recursion is on fuel: one unit for each nested call. *)
Fixpoint parN_itar (fuel : nat) (N : Z) (ios : list (QIO Val))
  : QIO (list Val) :=
  if_ (length ios =? 0)
    (of_ [])
    (chain (par (itarChunk N ios)) (fun l1 =>
       map
         match fuel with
         | O => Diverge
         | S fuel' => parN_itar fuel' N (itarRest N ios)
         end
         (fun l2 => l1 ++ l2))).

(** [QIO.parN(N, ios) = itar(ios)]; with [1 <= N] no call nests deeper
    than the length of [ios]. *)
Definition parN (N : Z) (ios : list (QIO Val)) : QIO (list Val) :=
  parN_itar (length ios) N ios.

(** The arguments of the successive calls of [itar]. *)
Fixpoint itarArgs {A} (k : nat) (N : Z) (ios : list A) : list A :=
  match k with
  | O => ios
  | S k' => itarArgs k' N (itarRest N ios)
  end.

End QIO.

(* ===================================================================== *)
(** * PureMutableList                                                     *)
(* ===================================================================== *)

(** Modelled from the spec: [PureMutableList] (internals/PureMutableList.ts
    is not among the sources), the mutable FIFO behind the [items] and the
    [takers] of a queue (section 3 and 4.6): [add] appends at the end and
    returns the inserted node, [shift] removes the first element and
    returns it, or [undefined] ([None]) when there is none. *)
Module PureMutableList.

Import QIO.

Record PureMutableList (A : Type) := { listId : nat }.
Arguments listId {A} _.

Record LinkedListNode (A : Type) := { value : A }.
Arguments value {A} _.

Section Ops.

Context {A : Type} `{Elem A}.

Definition read (this : PureMutableList A) (s : Store) : list A :=
  nth (listId this) (cells s) [].

Definition write (this : PureMutableList A) (l : list A) (s : Store) : Store :=
  setCells (setNth (listId this) l (cells s)) s.

Definition of_ : QIO (PureMutableList A) :=
  lift (fun s =>
    (setCells (cells s ++ [[]]) s, Returns {| listId := length (cells s) |})).

Definition add (this : PureMutableList A) (a : A)
  : QIO (LinkedListNode A) :=
  lift (fun s => (write this (read this s ++ [a]) s, Returns {| value := a |})).

Definition shift (this : PureMutableList A) : QIO (option A) :=
  lift (fun s =>
    match read this s with
    | [] => (s, Returns None)
    | x :: r => (write this r s, Returns (Some x))
    end).

Definition length (this : PureMutableList A) : QIO nat :=
  lift (fun s => (s, Returns (List.length (read this s)))).

Definition asArray (this : PureMutableList A) : QIO (list A) :=
  lift (fun s => (s, Returns (read this s))).

End Ops.

End PureMutableList.

(* ===================================================================== *)
(** * Queue                                                               *)
(* ===================================================================== *)

Module Queue.

Import QIO.
Module PML := PureMutableList.

(** [private constructor(capacity, Q, T)] *)
Record Queue := {
  capacity : N;
  Q : PML.PureMutableList Val;
  T : PML.PureMutableList Await
}.

(** [Number.MAX_SAFE_INTEGER] *)
Definition MAX_SAFE_INTEGER : N := 9007199254740991%N.

(** [get asArray() { return this.Q.asArray }] *)
Definition asArray (this : Queue) : QIO (list Val) := PML.asArray (Q this).

(** [get length() { return this.Q.length }] *)
Definition length (this : Queue) : QIO nat := PML.length (Q this).

(** [get size() { return this.Q.length }] *)
Definition size (this : Queue) : QIO nat := PML.length (Q this).

(** What [shift] returns is [undefined] when the list is empty, and also
    when its first element is the value [undefined]. *)
Definition isUndefined (sz : option Val) : bool :=
  match sz with
  | None | Some VUndef => true
  | Some _ => false
  end.

Definition orUndefined (sz : option Val) : Val :=
  match sz with
  | Some v => v
  | None => VUndef
  end.

(** [get take() { return this.Q.shift.chain(sz =>
       sz !== undefined ? FIO.of(sz)
       : FIO.flatten(Await.of().chain(
           FIO.encase(await => this.T.add(await).and(await.get))))) }] *)
Definition take (this : Queue) : QIO Val :=
  chain (PML.shift (Q this)) (fun sz =>
    if isUndefined sz then
      flatten
        (chain Await.of_
           (encase (fun await =>
              pure (and (PML.add (T this) await) (Await.get await)))))
    else of_ (orUndefined sz)).

(** [static bounded(capacity) { return PureMutableList.of().zipWith(
       PureMutableList.of(), (Q, T) => new Queue(capacity, Q, T)) }] *)
Definition bounded (capacity : N) : QIO Queue :=
  zipWith PML.of_ PML.of_
    (fun Q T => {| capacity := capacity; Q := Q; T := T |}).

(** [static unbounded() { return Queue.bounded(Number.MAX_SAFE_INTEGER) }] *)
Definition unbounded : QIO Queue := bounded MAX_SAFE_INTEGER.

(** [const itar = list => this.T.shift.chain(_ =>
       _ === undefined ? FIO.of(list)
                       : itar(list.prepend(_.set(FIO.of(value)))))].
    The loop ends when [T] is empty; the recursion is on fuel, one unit
    for each taker it removes. *)
Fixpoint setAwaited_itar (fuel : nat) (this : Queue) (value : Val)
  (lst : list (QIO bool)) : QIO (list (QIO bool)) :=
  chain (PML.shift (T this)) (fun x =>
    match x with
    | None => of_ lst
    | Some aw =>
        match fuel with
        | O => Diverge
        | S fuel' =>
            setAwaited_itar fuel' this value
              (ImmList.prepend lst (Await.set aw (of_ value)))
        end
    end).

(** [private setAwaited(value) { ...
       return itar(immutable.List.empty).chain(_ =>
         FIO.seq(_.asArray).tap(() =>
           !_.isEmpty ? this.Q.shift : FIO.void())) }].
    The fuel of the loop is the number of takers [T] holds when the loop
    starts: each round removes one of them. *)
Definition setAwaited (this : Queue) (value : Val) : QIO (list bool) :=
  chain
    (chain (PML.length (T this)) (fun n =>
       setAwaited_itar n this value ImmList.empty))
    (fun x =>
       tap (seq (ImmList.asArray x)) (fun _ =>
         if negb (ImmList.isEmpty x) then void (PML.shift (Q this))
         else void_)).

(** [offer(a) { return this.Q.add(a).tap(_ => this.setAwaited(_.value)) }] *)
Definition offer (this : Queue) (a : Val) : QIO (PML.LinkedListNode Val) :=
  tap (PML.add (Q this) a) (fun x => setAwaited this (PML.value x)).

(** [offerAll(...a) { return FIO.seq(a.map(_ => this.offer(_))) }] *)
Definition offerAll (this : Queue) (a : list Val)
  : QIO (list (PML.LinkedListNode Val)) :=
  seq (List.map (fun x => offer this x) a).

(** [const itar = (i, list) => FIO.if(i === n, FIO.of(list),
       this.take.chain(_ => itar(i + 1, list.prepend(_))))].
    The recursion is on fuel: the number of takes still to do. *)
Fixpoint takeN_itar (fuel : nat) (this : Queue) (n i : nat)
  (lst : list Val) : QIO (list Val) :=
  if_ (i =? n)
    (of_ lst)
    (chain (take this) (fun x =>
       match fuel with
       | O => Diverge
       | S fuel' => takeN_itar fuel' this n (i + 1) (ImmList.prepend lst x)
       end)).

(** [takeN(n) { ... return itar(0, List.empty).map(_ => _.asArray) }] *)
Definition takeN (this : Queue) (n : nat) : QIO (list Val) :=
  map (takeN_itar n this n 0 ImmList.empty) (fun x => ImmList.asArray x).

End Queue.

(* ===================================================================== *)
(** * The runtime: fibers, Await cells and the scheduler                  *)
(* ===================================================================== *)

(** Modelled from the spec: the fiber evaluator, the fiber records, the
    [Await] cells and the scheduler the core consumes (sections 3, 4.1,
    4.3, 4.4 and 5); none of them is among the sources.

    - The scheduler is single-threaded and deterministic: the thunks given
      to [asap] run first, in the order they were given; when there is
      none, the clock jumps to the earliest thunk given to [delay]
      (thunks due at the same time run in the order they were given).
      Every thunk has a handle; cancelling removes the thunk, and does
      nothing once it ran.
    - A fiber is [Pending], [Completed] with its exit, or [Aborted]; its
      status never changes once it is not [Pending].  It holds the
      callbacks waiting for its exit, and the handle of the one thunk the
      scheduler holds for it.
    - An [Await] holds whether a [set] came, the stored exit, if any,
      and the callbacks waiting for it. *)
Module Interp.

Import QIO.

Inductive Status := Pending | Completed (exit : Val) | Aborted.

(** A callback waiting for an exit: the fiber it resumes, and what that
    fiber continues with ([None]: the awaited fiber was aborted). *)
Definition Waiter : Type := nat * (option Val -> QIO Val).

Record FiberState := {
  status : Status;
  waiters : list Waiter;
  cancelHandle : option nat
}.

Record AwaitState := {
  flag : bool;
  result : option Val;
  awaiting : list Waiter
}.

(** The thunks the evaluator gives to the scheduler: evaluate [p] as the
    current effect of fiber [f]; run the registration of an [Async]
    instruction of fiber [f]; the callback of such a registration firing
    with the effect [p] the fiber resumes with. *)
Inductive Task :=
| TEval (f : nat) (p : QIO Val)
| TRegister (f : nat) (reg : Reg (QIO Val))
| TFire (f : nat) (p : QIO Val).

Record World := {
  store : Store;
  awaits : list AwaitState;
  fibers : list FiberState;
  asapQ : list (nat * Task);
  timers : list (nat * (nat * Task));
  now : nat;
  nextHandle : nat;
  hung : bool
}.

Definition emptyWorld : World :=
  {| store := emptyStore; awaits := []; fibers := []; asapQ := [];
     timers := []; now := 0; nextHandle := 0; hung := false |}.

Definition setStore (s : Store) (w : World) : World :=
  {| store := s; awaits := awaits w; fibers := fibers w; asapQ := asapQ w;
     timers := timers w; now := now w; nextHandle := nextHandle w;
     hung := hung w |}.

Definition setAwaits (a : list AwaitState) (w : World) : World :=
  {| store := store w; awaits := a; fibers := fibers w; asapQ := asapQ w;
     timers := timers w; now := now w; nextHandle := nextHandle w;
     hung := hung w |}.

Definition setFibers (f : list FiberState) (w : World) : World :=
  {| store := store w; awaits := awaits w; fibers := f; asapQ := asapQ w;
     timers := timers w; now := now w; nextHandle := nextHandle w;
     hung := hung w |}.

Definition setHung (w : World) : World :=
  {| store := store w; awaits := awaits w; fibers := fibers w;
     asapQ := asapQ w; timers := timers w; now := now w;
     nextHandle := nextHandle w; hung := true |}.

(** ** The scheduler *)

(** [scheduler.asap(t)]: the thunk goes to the end of the queue. *)
Definition schedAsap (t : Task) (w : World) : World * nat :=
  ({| store := store w; awaits := awaits w; fibers := fibers w;
      asapQ := asapQ w ++ [(nextHandle w, t)]; timers := timers w;
      now := now w; nextHandle := S (nextHandle w); hung := hung w |},
   nextHandle w).

(** The thunks given to [delay], kept in the order they will run. *)
Fixpoint insertTimer (due : nat) (x : nat * Task)
  (l : list (nat * (nat * Task))) : list (nat * (nat * Task)) :=
  match l with
  | [] => [(due, x)]
  | (d, y) :: r =>
      if d <=? due then (d, y) :: insertTimer due x r
      else (due, x) :: (d, y) :: r
  end.

(** [scheduler.delay(t, ms)] *)
Definition schedDelay (t : Task) (ms : nat) (w : World) : World * nat :=
  ({| store := store w; awaits := awaits w; fibers := fibers w;
      asapQ := asapQ w;
      timers := insertTimer (now w + ms) (nextHandle w, t) (timers w);
      now := now w; nextHandle := S (nextHandle w); hung := hung w |},
   nextHandle w).

(** Calling a handle: the thunk, if the scheduler still holds it, is
    dropped. *)
Definition cancel (h : nat) (w : World) : World :=
  {| store := store w; awaits := awaits w; fibers := fibers w;
     asapQ := filter (fun x => negb (fst x =? h)) (asapQ w);
     timers := filter (fun x => negb (fst (snd x) =? h)) (timers w);
     now := now w; nextHandle := nextHandle w; hung := hung w |}.

(** ** Fiber records *)

Definition newFiber : FiberState :=
  {| status := Pending; waiters := []; cancelHandle := None |}.

Definition getFiber (f : nat) (w : World) : FiberState :=
  nth f (fibers w)
      {| status := Aborted; waiters := []; cancelHandle := None |}.

Definition putFiber (f : nat) (fs : FiberState) (w : World) : World :=
  setFibers (setNth f fs (fibers w)) w.

Definition isPending (f : nat) (w : World) : bool :=
  match status (getFiber f w) with Pending => true | _ => false end.

(** Give a thunk of fiber [f] to [asap]; its handle becomes the cancel
    handle of the fiber. *)
Definition scheduleFor (f : nat) (t : Task) (w : World) : World :=
  let (w1, h) := schedAsap t w in
  let fs := getFiber f w1 in
  putFiber f {| status := status fs; waiters := waiters fs;
                cancelHandle := Some h |} w1.

(** Invoke the callbacks waiting for an exit, in registration order: each
    resumes its fiber through the scheduler. *)
Definition notify (exit : option Val) (ws : list Waiter) (w : World)
  : World :=
  fold_left (fun w1 x => scheduleFor (fst x) (TEval (fst x) (snd x exit)) w1)
            ws w.

(** The evaluator reaching the end of the effect of fiber [f]. *)
Definition complete (f : nat) (exit : Val) (w : World) : World :=
  let fs := getFiber f w in
  match status fs with
  | Pending =>
      notify (Some exit) (waiters fs)
        (putFiber f {| status := Completed exit; waiters := [];
                       cancelHandle := None |} w)
  | _ => w
  end.

(** [Fiber.abort]: nothing on a terminal fiber; otherwise the status is
    [Aborted], the outstanding handle is invoked, and every waiter is
    notified once. *)
Definition abort (f : nat) (w : World) : World :=
  let fs := getFiber f w in
  match status fs with
  | Pending =>
      let w1 := match cancelHandle fs with
                | Some h => cancel h w
                | None => w
                end in
      notify None (waiters fs)
        (putFiber f {| status := Aborted; waiters := [];
                       cancelHandle := None |} w1)
  | _ => w
  end.

(** [Fork]: a new fiber, with the callbacks [ws] already waiting for it;
    its first tick goes through [asap]. *)
Definition spawn (io : QIO Val) (ws : list Waiter) (w : World)
  : World * nat :=
  let f := length (fibers w) in
  let w1 := setFibers (fibers w ++ [{| status := Pending; waiters := ws;
                                       cancelHandle := None |}]) w in
  (scheduleFor f (TEval f io) w1, f).

Definition addWaiter (f : nat) (x : Waiter) (w : World) : World :=
  let fs := getFiber f w in
  putFiber f {| status := status fs; waiters := waiters fs ++ [x];
                cancelHandle := cancelHandle fs |} w.

(** ** Await cells *)

Definition getAwait (a : nat) (w : World) : AwaitState :=
  nth a (awaits w) {| flag := false; result := None; awaiting := [] |}.

Definition putAwait (a : nat) (x : AwaitState) (w : World) : World :=
  setAwaits (setNth a x (awaits w)) w.

(** ** The evaluation loop *)

(** The synchronous part of the loop: evaluate [p] as the current effect
    of fiber [f] until the fiber completes or suspends.  The environment
    of a fiber is [undefined] unless [provide] installed one. *)
Fixpoint eval (f : nat) (p : QIO Val) (w : World) : World :=
  match p with
  | Constant a => complete f (VRight a) w
  | Reject e => complete f (VLeft e) w
  | Try cb => let (s', q) := cb (store w) in eval f q (setStore s' w)
  | Access cb => eval f (cb VUndef) w
  | Runtime k => eval f (k theRuntime) w
  | Fork io rt k =>
      let (w1, g) := spawn io [] w in eval f (k {| id := g |}) w1
  | Async reg => scheduleFor f (TRegister f reg) w
  | Never => w
  | Diverge => setHung w
  | AwaitOf k =>
      eval f (k {| awaitId := length (awaits w) |})
           (setAwaits
              (awaits w ++ [{| flag := false; result := None; awaiting := [] |}])
              w)
  | AwaitFlag aw k =>
      let a := getAwait (awaitId aw) w in
      if flag a then eval f (k true) w
      else
        eval f (k false)
             (putAwait (awaitId aw)
                {| flag := true; result := result a; awaiting := awaiting a |}
                w)
  | AwaitPut aw exit k =>
      let a := getAwait (awaitId aw) w in
      eval f k
           (notify (Some exit) (awaiting a)
              (putAwait (awaitId aw)
                 {| flag := flag a; result := Some exit; awaiting := [] |} w))
  | AwaitGet aw k =>
      let a := getAwait (awaitId aw) w in
      match result a with
      | Some exit => eval f (k (Some exit)) w
      | None =>
          putAwait (awaitId aw)
            {| flag := flag a; result := None;
               awaiting := awaiting a ++ [(f, k)] |} w
      end
  | FiberAwait g k =>
      match status (getFiber (id g) w) with
      | Pending => addWaiter (id g) (f, k) w
      | Completed exit => eval f (k (Some exit)) w
      | Aborted => eval f (k None) w
      end
  | FiberAbort g k =>
      let w1 := abort (id g) w in
      if isPending f w1 then eval f k w1 else w1
  end.

(** Running one thunk.  A thunk of a fiber that is no longer pending does
    nothing. *)
Definition clearHandle (f : nat) (w : World) : World :=
  let fs := getFiber f w in
  putFiber f {| status := status fs; waiters := waiters fs;
                cancelHandle := None |} w.

Definition setHandle (f : nat) (h : nat) (w : World) : World :=
  let fs := getFiber f w in
  putFiber f {| status := status fs; waiters := waiters fs;
                cancelHandle := Some h |} w.

Definition runTask (t : Task) (w : World) : World :=
  match t with
  | TEval f p =>
      if isPending f w then eval f p (clearHandle f w) else w
  | TRegister f reg =>
      if isPending f w then
        match reg with
        | RegDelay p ms =>
            let (w1, h) := schedDelay (TFire f p) ms w in setHandle f h w1
        | RegAsap p =>
            let (w1, h) := schedAsap (TFire f p) w in setHandle f h w1
        end
      else w
  | TFire f p =>
      if isPending f w then scheduleFor f (TEval f p) (clearHandle f w)
      else w
  end.

Definition setAsapQ (q : list (nat * Task)) (w : World) : World :=
  {| store := store w; awaits := awaits w; fibers := fibers w; asapQ := q;
     timers := timers w; now := now w; nextHandle := nextHandle w;
     hung := hung w |}.

Definition popTimer (due : nat) (r : list (nat * (nat * Task))) (w : World)
  : World :=
  {| store := store w; awaits := awaits w; fibers := fibers w;
     asapQ := asapQ w; timers := r; now := due;
     nextHandle := nextHandle w; hung := hung w |}.

(** One turn of the scheduler. *)
Definition tick (w : World) : World :=
  if hung w then w
  else
    match asapQ w with
    | (_, t) :: q => runTask t (setAsapQ q w)
    | [] =>
        match timers w with
        | (due, (_, t)) :: r => runTask t (popTimer due r w)
        | [] => w
        end
    end.

Fixpoint run (n : nat) (w : World) : World :=
  match n with
  | O => w
  | S m => run m (tick w)
  end.

(** [runtime.unsafeRun(eff)]: a root fiber for [eff]. *)
Definition unsafeRun {A} `{ToVal A} (eff : QIO A) (w : World) : World * nat :=
  spawn (map eff toVal) [] w.

(** Nothing is left for the scheduler to run. *)
Definition idle (w : World) : bool :=
  match asapQ w, timers w with
  | [], [] => true
  | _, _ => false
  end.

Definition statusOf (f : nat) (w : World) : Status := status (getFiber f w).

(** [runtime.unsafeRunSync(eff)] on a fresh runtime: the status of the
    root fiber after [n] turns of the scheduler. *)
Definition unsafeRunSync {A} `{ToVal A} (n : nat) (eff : QIO A) : Status :=
  let (w, f) := unsafeRun eff emptyWorld in statusOf f (run n w).

End Interp.

(* ===================================================================== *)
(** * Observations on the runtime                                         *)
(* ===================================================================== *)

Module Obs.

Import QIO Interp.


(** Two observers of the effect [e.once] resolves with, one after the
    other, on one runtime. *)
Definition observeTwice (e : QIO Val) : QIO (list Val) :=
  chain (once e) (fun memo => zipWith memo memo (fun a b => [a; b])).






(** The state of the runtime [n] turns of the scheduler after
    [unsafeRun eff] on a fresh runtime. *)
Definition runFresh {A} `{ToVal A} (n : nat) (eff : QIO A) : World :=
  run n (fst (unsafeRun eff emptyWorld)).

(** Offer [a] then [b] to a new queue, then take twice with [take], or
    once with [takeN(2)]. *)
Definition offerThenTakes (a b : Val) : QIO (list Val) :=
  chain (Queue.bounded 10) (fun q =>
    and (Queue.offerAll q [a; b])
        (zipWith (Queue.take q) (Queue.take q) (fun x y => [x; y]))).

Definition offerThenTakeN (a b : Val) : QIO (list Val) :=
  chain (Queue.bounded 10) (fun q =>
    and (Queue.offerAll q [a; b]) (Queue.takeN q 2)).

End Obs.

(* ===================================================================== *)
(** * Clients of a queue                                                  *)
(* ===================================================================== *)

Module QueueRuns.

Import QIO Interp.
Module PML := PureMutableList.

(** The queue [Queue.bounded(capacity)] makes on a fresh runtime: its two
    lists are the first of their kind. *)
Definition theQueue (capacity : N) : Queue.Queue :=
  {| Queue.capacity := capacity;
     Queue.Q := {| PML.listId := 0 |};
     Queue.T := {| PML.listId := 0 |} |}.

(** The runtime once a root fiber has evaluated [Queue.bounded(capacity)]. *)
Definition created (capacity : N) : World :=
  Obs.runFresh 1 (void (Queue.bounded capacity)).

(** The store of a runtime that holds the two lists of one queue. *)
Definition mkStore (is_ : list Val) (ts : list Await) : Store :=
  {| valCells := [is_]; awaitCells := [ts]; counter := 0 |}.

(** What a client asks of the queue, and the effect it runs for it (the
    node [offer] resolves with is boxed as its value). *)
Inductive Client := COffer (a : Val) | CTake.

Definition clientEff (q : Queue.Queue) (c : Client) : QIO Val :=
  match c with
  | COffer a => map (Queue.offer q a) (fun node => PML.value node)
  | CTake => Queue.take q
  end.

(** An interleaving: clients hand effects to [unsafeRun] (each gets a
    root fiber of its own), and the scheduler takes turns, in any order. *)
Inductive Ev := Issue (c : Client) | Turn.

(** The runtime, and the fibers of the operations issued so far, oldest
    first. *)
Definition stepLog (q : Queue.Queue) (x : World * list (nat * Client))
  (ev : Ev) : World * list (nat * Client) :=
  match ev with
  | Issue c =>
      let (w, f) := unsafeRun (clientEff q c) (fst x) in
      (w, snd x ++ [(f, c)])
  | Turn => (tick (fst x), snd x)
  end.

Definition execLog (q : Queue.Queue) (evs : list Ev) (w : World)
  : World * list (nat * Client) :=
  fold_left (stepLog q) evs (w, []).

(** The states a queue of the given capacity can be in. *)
Definition reached (capacity : N) (evs : list Ev) : World :=
  fst (execLog (theQueue capacity) evs (created capacity)).

Definition items (q : Queue.Queue) (w : World) : list Val :=
  PML.read (Queue.Q q) (store w).

Definition takers (q : Queue.Queue) (w : World) : list Await :=
  PML.read (Queue.T q) (store w).





(** [AWT.set(QIO.of(a))] as the runtime performs it: the first [set] of
    an [Await] stores the exit [Right(a)] and resumes every waiter with
    it; a later one does nothing. *)
Definition deliver (a : Val) (w : World) (aw : Await) : World :=
  let st := getAwait (awaitId aw) w in
  if flag st then w
  else
    notify (Some (VRight a)) (awaiting st)
      (putAwait (awaitId aw)
         {| flag := true; result := Some (VRight a); awaiting := [] |} w).

(** A value other than [undefined]. *)
Definition defined (v : Val) : bool := negb (Queue.isUndefined (Some v)).











(** What a fiber suspended in [await.get] continues with, [k] being the
    rest of its effect. *)
Definition takeK (k : Val -> QIO Val) : option Val -> QIO Val :=
  fun exit =>
    chain match exit with Some e => fromEither e | None => never end k.

(** [_.set(FIO.of(value))], the effect [setAwaited] builds for a taker. *)
Definition setOf (a : Val) (aw : Await) : QIO bool := Await.set aw (of_ a).

(** The stored items after [offer(a)]: [a] is added at the end, and the
    first item is removed again when takers were waiting. *)
Definition afterOffer (is_ : list Val) (ts : list Await) (a : Val)
  : list Val :=
  match ts with
  | [] => is_ ++ [a]
  | _ :: _ => tl (is_ ++ [a])
  end.


(** The step of the fold in [QIO.seq], and what it means for an
    accumulated effect to end in the state [Wf] gives. *)
Definition seqStep (fList : QIO (list bool)) (io : QIO bool)
  : QIO (list bool) :=
  chain fList (fun lst => map io (fun value => ImmList.prepend lst value)).

Definition runsTo (f : nat) (acc : QIO (list bool)) (Wf : World -> World)
  : Prop :=
  forall (k : list bool -> QIO Val) (w : World),
    exists l, eval f (chain acc k) w = eval f (k l) (Wf w).





End QueueRuns.

(* ===================================================================== *)
(** * Histories of a forked computation                                   *)
(* ===================================================================== *)

Module ComputationRuns.

Import Computation.

Section Runs.

Variables E A : Type.

(** A history in which the computation invokes neither callback. *)
Definition noInvoke (evs : list (Event E A)) : bool :=
  forallb (fun ev => match ev with Invoke _ => false | _ => true end) evs.

(** What [fork] keeps true of the variables it closes over: while the
    task has not run, [cancellations] holds the scheduler handle alone;
    no function is in [cancellations] twice; and a cancel function has
    been called only once the status left [FORKED]. *)
Definition cancelInv (st : State E A) : Prop :=
  (task st = Scheduled -> cancellations st = [AsapHandle]) /\
  NoDup (cancellations st) /\
  (invoked st = [] \/ (status st <> FORKED /\ NoDup (invoked st))).

End Runs.

(** A computation that calls nothing back and returns the cancel function
    [n]. *)
Definition returnsCancel (n : nat) : Cmp nat nat :=
  {| calls := []; finish := Return (Some n) |}.

End ComputationRuns.

(* ===================================================================== *)
(** * QIO: the methods that narrow or fix the environment                 *)
(* ===================================================================== *)

Module QIOEnv.

Import QIO.

(** [QIO.pipeEnv(fn, R) = (...T0) => fn(...T0).provide(R)] *)
Definition pipeEnv {T A} (fn : T -> QIO A) (R : Val) : T -> QIO A :=
  fun T0 => provide (fn T0) R.

(** [this.provideM(io) = io.chain(ENV => this.provide(ENV))] *)
Definition provideM {A} (this : QIO A) (io : QIO Val) : QIO A :=
  chain io (fun ENV => provide this ENV).

(** [this.provideSome(fn) = QIO.accessM(r0 => this.provide(fn(r0)))] *)
Definition provideSome {A} (this : QIO A) (fn : Val -> Val) : QIO A :=
  accessM (fun r0 => provide this (fn r0)).

(** [this.provideSomeM(qio) = qio.chain(_ => this.provide(_))] *)
Definition provideSomeM {A} (this : QIO A) (qio : QIO Val) : QIO A :=
  chain qio (fun x => provide this x).

End QIOEnv.

(* ===================================================================== *)
(** * Programs over QIO and Queue                                         *)
(* ===================================================================== *)

Module Programs.

Import QIO Interp QueueRuns.

(** The step of the fold in [QIO.seq], at any type:
    [(fList, f) => fList.chain(list => f.map(value => list.prepend(value)))] *)
Definition seqStepOf {A} (fList : QIO (list A)) (f : QIO A) : QIO (list A) :=
  chain fList (fun lst => QIO.map f (fun value => ImmList.prepend lst value)).

(** What [itar] of [parN] unrolls to: [par] of one chunk after the other,
    the results concatenated, and [tail] where the unrolling stops. *)
Fixpoint parChunks (chunks : list (list (QIO Val))) (tail : QIO (list Val))
  : QIO (list Val) :=
  match chunks with
  | [] => tail
  | c :: cs =>
      chain (par c) (fun l1 =>
        QIO.map (parChunks cs tail) (fun l2 => l1 ++ l2))
  end.

(** The chunks [list.slice(0, N)] of the successive calls of [itar], for
    as long as the list is not empty and at most [fuel] nested calls. *)
Fixpoint chunksOf {A} (fuel : nat) (N : Z) (ios : list A) : list (list A) :=
  if length ios =? 0 then []
  else
    itarChunk N ios ::
    match fuel with
    | O => []
    | S fuel' => chunksOf fuel' N (itarRest N ios)
    end.

(** No path through the effect reaches [Diverge], the mark of a loop of
    the source that does not end. *)
Fixpoint noDiverge (A : Type) (p : QIO A) {struct p} : Prop :=
  match p with
  | Constant _ | Reject _ | Never => True
  | Diverge => False
  | Try cb => forall s, noDiverge (snd (cb s))
  | Access cb => forall r, noDiverge (cb r)
  | Runtime k => forall rt, noDiverge (k rt)
  | Fork io _ k => noDiverge io /\ forall f, noDiverge (k f)
  | Async (RegDelay q _) => noDiverge q
  | Async (RegAsap q) => noDiverge q
  | AwaitOf k => forall aw, noDiverge (k aw)
  | AwaitFlag _ k => forall b, noDiverge (k b)
  | AwaitPut _ _ k => noDiverge k
  | AwaitGet _ k => forall x, noDiverge (k x)
  | FiberAwait _ k => forall x, noDiverge (k x)
  | FiberAbort _ k => noDiverge k
  end.

(** The node [Q.add(a)] returns. *)
Definition nodeOf (a : Val) : PureMutableList.LinkedListNode Val :=
  {| PureMutableList.value := a |}.

(** [io.fork.chain(f => f.join)] *)
Definition forkJoin (io : QIO Val) : QIO Val := chain (fork io) Fiber.join.

(** Two offers, each run to its end. *)
Definition twoStored : list Ev :=
  [Issue (COffer (VNum 1)); Turn; Issue (COffer (VNum 2)); Turn].

(** A take on a new queue, run until it waits; then an offer, and the
    scheduler until nothing is left. *)
Definition takeThenOffer (a : Val) : list Ev :=
  [Issue CTake; Turn; Issue (COffer a); Turn; Turn; Turn].

(** Two takes on a new queue, run until both wait; then one offer, and
    the scheduler until nothing is left. *)
Definition twoTakesThenOffer (a : Val) : list Ev :=
  [Issue CTake; Issue CTake; Turn; Turn; Issue (COffer a)] ++ repeat Turn 6.

(** [offer(undefined)] on a new queue, run to its end. *)
Definition undefinedStored : list Ev := [Issue (COffer VUndef); Turn].

End Programs.

(* ===================================================================== *)
(** * Facts: Computation.fork                                             *)
(* ===================================================================== *)

Module ComputationFacts.

Import Computation.

Section Facts.

Variables E A : Type.

Lemma invokeAll_app (cs1 cs2 : list (Call E A)) (st : State E A) :
  invokeAll (cs1 ++ cs2) st = invokeAll cs2 (invokeAll cs1 st).
Proof. unfold invokeAll. apply fold_left_app. Qed.

Lemma delivered_invoke (c : Call E A) (st : State E A) :
  delivered (invoke c st) = delivered st ++ [c].
Proof. destruct c; reflexivity. Qed.

Lemma status_invoke (c : Call E A) (st : State E A) :
  status (invoke c st) = statusOfCall c.
Proof. destruct c; reflexivity. Qed.

Lemma delivered_invokeAll (cs : list (Call E A)) :
  forall st : State E A, delivered (invokeAll cs st) = delivered st ++ cs.
Proof.
  induction cs as [|c cs IH]; intros st; cbn.
  - now rewrite app_nil_r.
  - change (delivered (invokeAll cs (invoke c st)) = delivered st ++ c :: cs).
    rewrite IH, delivered_invoke, <- app_assoc. reflexivity.
Qed.

(** The cancel function does nothing the second time. *)
Lemma status_fold_callCancel (cs : list Cancel) :
  forall st : State E A, status (fold_left (@callCancel E A) cs st) = status st.
Proof.
  induction cs as [|c cs IH]; intros st; cbn; [reflexivity|].
  rewrite IH. reflexivity.
Qed.

Lemma cancel_idempotent (st : State E A) : cancel (cancel st) = cancel st.
Proof.
  assert (Hc : status st = FORKED -> status (cancel st) = CANCELLED).
  { intros Hs. unfold cancel. rewrite Hs. apply status_fold_callCancel. }
  destruct (status st) eqn:Hs.
  - unfold cancel at 1. now rewrite (Hc eq_refl).
  - unfold cancel. now rewrite Hs, Hs.
  - unfold cancel. now rewrite Hs, Hs.
  - unfold cancel. now rewrite Hs, Hs.
Qed.

(** After [onRes] or [onRej] the cancel function is a no-op. *)
Lemma cancel_after_invoke (c : Call E A) (st : State E A) :
  cancel_is_noop (invoke c st).
Proof. destruct c; reflexivity. Qed.

End Facts.

(** C7 (as stated, refuted).  A computation that calls [res] twice: the
    continuation receives both results, so it is not true that only the
    first invocation reaches it. *)
Lemma C7_counterexample : ~ first_call_wins resolvesTwice [Tick].
Proof. unfold first_call_wins. cbn. discriminate. Qed.

(** C7 (amended).  Every invocation of the [rej] or [res] callback the
    computation was given reaches the continuation, the first one and
    every later one, in the order of the invocations; and each one
    overwrites the status with [REJECTED] or [RESOLVED].  None is
    ignored. *)
Theorem C7_every_invocation_is_delivered :
  forall (E A : Type) (cs : list (Call E A)) (c : Call E A) (st : State E A),
    delivered (invokeAll (cs ++ [c]) st) = delivered st ++ cs ++ [c] /\
    status (invokeAll (cs ++ [c]) st) = statusOfCall c.
Proof.
  intros E A cs c st. split.
  - apply delivered_invokeAll.
  - rewrite invokeAll_app. cbn. apply status_invoke.
Qed.

(** C8 (the code at the failing input).  A computation that throws as
    soon as it runs: the [catch] clause calls [rej] and not [onRej], the
    status stays [FORKED], and a later call of the cancel function sets it
    to [CANCELLED] and calls the scheduler handle. *)
Theorem C8_cancel_after_throw :
  forall (E A : Type) (e : E),
    let st := exec (throwsAtOnce A e) [Tick] in
    delivered st = [Rej e] /\
    status st = FORKED /\
    status (cancel st) = CANCELLED /\
    invoked (cancel st) = [AsapHandle] /\
    ~ cancel_is_noop st.
Proof.
  intros E A e. cbn. repeat split. unfold cancel_is_noop. cbn. discriminate.
Qed.

End ComputationFacts.

(* ===================================================================== *)
(** * Facts: QIO                                                          *)
(* ===================================================================== *)

Module QIOFacts.

Import QIO Interp Obs Programs.

(** Induction on an effect: every instruction is followed by effects for
    which the property holds. *)
Lemma QIO_induction (A : Type) (P : QIO A -> Prop) :
  (forall a, P (Constant a)) ->
  (forall e, P (Reject e)) ->
  (forall cb, (forall s, P (snd (cb s))) -> P (Try cb)) ->
  (forall cb, (forall r, P (cb r)) -> P (Access cb)) ->
  (forall k, (forall rt, P (k rt)) -> P (Runtime k)) ->
  (forall io rt k, (forall f, P (k f)) -> P (Fork io rt k)) ->
  (forall q ms, P q -> P (Async (RegDelay q ms))) ->
  (forall q, P q -> P (Async (RegAsap q))) ->
  P Never ->
  P Diverge ->
  (forall k, (forall aw, P (k aw)) -> P (AwaitOf k)) ->
  (forall aw k, (forall b, P (k b)) -> P (AwaitFlag aw k)) ->
  (forall aw exit k, P k -> P (AwaitPut aw exit k)) ->
  (forall aw k, (forall x, P (k x)) -> P (AwaitGet aw k)) ->
  (forall f k, (forall x, P (k x)) -> P (FiberAwait f k)) ->
  (forall f k, P k -> P (FiberAbort f k)) ->
  forall q, P q.
Proof.
  intros H1 H2 H3 H4 H5 H6 H7 H7' H8 H9 H10 H11 H11' H12 H13 H14.
  fix IH 1. intros q. destruct q.
  - apply H1.
  - apply H2.
  - apply H3. intros s. apply IH.
  - apply H4. intros r. apply IH.
  - apply H5. intros r. apply IH.
  - apply H6. intros r. apply IH.
  - destruct reg as [q ms|q].
    + apply H7. apply IH.
    + apply H7'. apply IH.
  - apply H8.
  - apply H9.
  - apply H10. intros; apply IH.
  - apply H11. intros; apply IH.
  - apply H11'. apply IH.
  - apply H12. intros; apply IH.
  - apply H13. intros; apply IH.
  - apply H14. apply IH.
Qed.

Ltac ext_step IH :=
  f_equal; apply functional_extensionality; intros ?; apply IH.

Lemma chain_of_r {A} (m : QIO A) : chain m of_ = m.
Proof.
  induction m using QIO_induction; cbn;
    try reflexivity; try (ext_step H); try (now rewrite IHm).
  f_equal. apply functional_extensionality. intros s.
  specialize (H s). destruct (cb s) as [s' q]. cbn in H. now rewrite H.
Qed.

Lemma chain_assoc {A B C} (m : QIO A) (f : A -> QIO B) (g : B -> QIO C) :
  chain (chain m f) g = chain m (fun x => chain (f x) g).
Proof.
  induction m using QIO_induction; cbn;
    try reflexivity; try (ext_step H); try (now rewrite IHm).
  f_equal. apply functional_extensionality. intros s.
  specialize (H s). destruct (cb s) as [s' q]. cbn in H. now rewrite H.
Qed.

(** C3.  The monad laws of [chain] over [of]: left identity, right
    identity and associativity.  The two sides of each law are the same
    effect; so they have the same observable outcome: evaluated by any
    fiber in any state of the runtime, they leave it in the same
    state. *)
Theorem C3_monad_laws :
  forall (A B C : Type) (a : A) (m : QIO A)
         (f : A -> QIO B) (g : B -> QIO C),
    (chain (of_ a) f = f a /\
     chain m of_ = m /\
     chain (chain m f) g = chain m (fun x => chain (f x) g)) /\
    (forall (h : A -> QIO Val) (m2 : QIO Val) (g2 : B -> QIO Val)
            (i : nat) (w : World),
       eval i (chain (of_ a) h) w = eval i (h a) w /\
       eval i (chain m2 of_) w = eval i m2 w /\
       eval i (chain (chain m f) g2) w
       = eval i (chain m (fun x => chain (f x) g2)) w).
Proof.
  intros A B C a m f g. split.
  - split; [reflexivity|]. split; [apply chain_of_r | apply chain_assoc].
  - intros h m2 g2 i w. split; [reflexivity|].
    split; [now rewrite chain_of_r | now rewrite chain_assoc].
Qed.

(** ** [parN]: the chunking recursion *)

Lemma relIndex_nonneg (len : nat) (i : Z) :
  (0 <= i)%Z -> relIndex len i = Nat.min (Z.to_nat i) len.
Proof.
  intros H. unfold relIndex. destruct (Z.ltb_spec i 0); [lia | reflexivity].
Qed.

Lemma relIndex_neg (len : nat) (i : Z) :
  (i < 0)%Z -> relIndex len i = Z.to_nat (Z.max (Z.of_nat len + i) 0).
Proof.
  intros H. unfold relIndex. destruct (Z.ltb_spec i 0); [reflexivity | lia].
Qed.

Lemma length_slice {A} (start end_ : Z) (l : list A) :
  length (slice start end_ l) =
  relIndex (length l) end_ - relIndex (length l) start.
Proof.
  unfold slice. rewrite length_firstn, length_skipn.
  assert (relIndex (length l) end_ <= length l).
  { unfold relIndex. destruct (Z.ltb_spec end_ 0); lia. }
  lia.
Qed.

Lemma length_itarRest {A} (N : Z) (ios : list A) :
  (1 <= N)%Z -> length (itarRest N ios) = length ios - Z.to_nat N.
Proof.
  intros H. unfold itarRest. rewrite length_slice.
  rewrite !relIndex_nonneg by lia. rewrite Nat2Z.id. lia.
Qed.

Lemma itarRest_stuck {A} (N : Z) (ios : list A) :
  (N <= 0)%Z -> ios <> [] -> itarRest N ios <> [].
Proof.
  intros H Hne Hnil. apply (f_equal (@length A)) in Hnil.
  unfold itarRest in Hnil. rewrite length_slice in Hnil. cbn in Hnil.
  assert (0 < length ios) by (destruct ios; cbn; [congruence | lia]).
  rewrite (@relIndex_nonneg (length ios) (Z.of_nat (length ios))) in Hnil by lia.
  rewrite Nat2Z.id in Hnil.
  destruct (Z.eq_dec N 0) as [->|Hn].
  - rewrite relIndex_nonneg in Hnil by lia. cbn in Hnil. lia.
  - rewrite relIndex_neg in Hnil by lia. lia.
Qed.

Lemma parN_itar_S (fuel : nat) (N : Z) (ios : list (QIO Val)) :
  parN_itar (S fuel) N ios =
  if_ (length ios =? 0) (of_ [])
    (chain (par (itarChunk N ios)) (fun l1 =>
       map (parN_itar fuel N (itarRest N ios)) (fun l2 => l1 ++ l2))).
Proof. reflexivity. Qed.

Lemma parN_itar_nil fuel N : parN_itar fuel N [] = of_ [].
Proof. destruct fuel; reflexivity. Qed.

Lemma length_pos {A} (l : list A) : l <> [] -> (length l =? 0) = false.
Proof. destruct l; [congruence | reflexivity]. Qed.

(** With [1 <= N] the recursion stops before the fuel is used up:
    [itar] is [par] of the chunks, ending in [QIO.of([])]. *)
Lemma parN_itar_unrolls (N : Z) :
  (1 <= N)%Z ->
  forall (fuel : nat) (ios : list (QIO Val)),
    length ios <= fuel ->
    parN_itar fuel N ios = parChunks (chunksOf fuel N ios) (of_ []).
Proof.
  intros H. induction fuel as [|fuel IH]; intros ios Hl.
  - destruct ios; [reflexivity | cbn in Hl; lia].
  - destruct ios as [|io ios]; [reflexivity|].
    rewrite parN_itar_S. cbn [length Nat.eqb if_ chunksOf parChunks].
    rewrite IH; [reflexivity|].
    rewrite length_itarRest by assumption. cbn [length] in *. lia.
Qed.

(** With [1 <= N] more fuel gives the same chunks. *)
Lemma chunksOf_fuel {A} (N : Z) :
  (1 <= N)%Z ->
  forall (fuel : nat) (ios : list A),
    length ios <= fuel ->
    chunksOf fuel N ios = chunksOf (length ios) N ios.
Proof.
  intros H.
  assert (G : forall n fuel (ios : list A), length ios <= n -> n <= fuel ->
              chunksOf fuel N ios = chunksOf n N ios).
  { induction n as [|n IH]; intros fuel ios Hl Hf.
    - destruct ios; [|cbn in Hl; lia]. destruct fuel; reflexivity.
    - destruct ios as [|io ios]; [destruct fuel; reflexivity|].
      destruct fuel as [|fuel]; [lia|].
      cbn [chunksOf length Nat.eqb]. f_equal. apply IH; [|lia].
      rewrite length_itarRest by assumption. cbn [length] in *. lia. }
  intros fuel ios Hl. apply G; [apply Nat.le_refl | assumption].
Qed.

(** With [N <= 0] and a list that is not empty, the unrolling never ends
    in [QIO.of([])]: whatever the fuel, it is [par] of one chunk more
    than the fuel, and then the call that would nest deeper. *)
Lemma parN_itar_stuck (N : Z) :
  (N <= 0)%Z ->
  forall (fuel : nat) (ios : list (QIO Val)),
    ios <> [] ->
    parN_itar fuel N ios = parChunks (chunksOf fuel N ios) Diverge /\
    length (chunksOf fuel N ios) = S fuel.
Proof.
  intros H. induction fuel as [|fuel IH]; intros ios Hne.
  - cbn [parN_itar chunksOf]. rewrite (length_pos Hne). split; reflexivity.
  - rewrite parN_itar_S. cbn [chunksOf]. rewrite (length_pos Hne).
    cbn [if_ parChunks length].
    destruct (IH (itarRest N ios)) as [E L]; [now apply itarRest_stuck|].
    rewrite E, L. split; reflexivity.
Qed.

(** *** No effect [parN] builds loops when [1 <= N] *)

Lemma noDiverge_chain {A B} (m : QIO A) (f : A -> QIO B) :
  noDiverge m -> (forall a, noDiverge (f a)) -> noDiverge (chain m f).
Proof.
  intros Hm Hf. induction m using QIO_induction; cbn in *; auto.
  - intros s. specialize (H s). specialize (Hm s).
    destruct (cb s) as [s' q]. cbn in *. auto.
  - destruct Hm as [Hio Hk]. split; auto.
Qed.

Lemma noDiverge_catch {A} (m : QIO A) (h : Val -> QIO A) :
  noDiverge m -> (forall e, noDiverge (h e)) -> noDiverge (catch m h).
Proof.
  intros Hm Hh. induction m using QIO_induction; cbn in *; auto.
  - intros s. specialize (H s). specialize (Hm s).
    destruct (cb s) as [s' q]. cbn in *. auto.
  - destruct Hm as [Hio Hk]. split; auto.
Qed.

Lemma noDiverge_provide {A} (m : QIO A) (r : Val) :
  noDiverge m -> noDiverge (provide m r).
Proof.
  intros Hm. induction m using QIO_induction; cbn in *; auto.
  - intros s. specialize (H s). specialize (Hm s).
    destruct (cb s) as [s' q]. cbn in *. auto.
  - destruct Hm as [Hio Hk]. split; auto.
Qed.

Lemma noDiverge_map {A B} (m : QIO A) (f : A -> B) :
  noDiverge m -> noDiverge (QIO.map m f).
Proof. intros H. apply noDiverge_chain; [exact H | intros a; exact I]. Qed.

Lemma noDiverge_fork {A} `{ToVal A} (m : QIO A) :
  noDiverge m -> noDiverge (fork m).
Proof.
  intros Hm. cbn. intros r rt. split; [|intros f; exact I].
  apply noDiverge_map, noDiverge_provide, Hm.
Qed.

Lemma noDiverge_set (aw : Await) (io : QIO Val) :
  noDiverge io -> noDiverge (Await.set aw io).
Proof.
  intros Hio. unfold Await.set. cbn [noDiverge]. intros [|]; [exact I|].
  apply noDiverge_chain; [|intros e; exact I].
  unfold asEither. apply noDiverge_catch; [|intros e; exact I].
  apply noDiverge_map, noDiverge_map, Hio.
Qed.

Lemma noDiverge_fromEither (e : Val) : noDiverge (fromEither e).
Proof. destruct e; exact I. Qed.

Lemma noDiverge_get (aw : Await) : noDiverge (Await.get aw).
Proof. cbn. intros [e|]; [apply noDiverge_fromEither | exact I]. Qed.

Lemma noDiverge_join (F : Fiber) : noDiverge (Fiber.join F).
Proof. cbn. intros [e|]; [apply noDiverge_fromEither | exact I]. Qed.

Lemma noDiverge_raceWith (this that : QIO Val)
  (cb1 cb2 : Val -> Fiber -> QIO Val) :
  noDiverge this -> noDiverge that ->
  (forall v F, noDiverge (cb1 v F)) -> (forall v F, noDiverge (cb2 v F)) ->
  noDiverge (raceWith this that cb1 cb2).
Proof.
  intros H1 H2 H3 H4. unfold raceWith.
  apply noDiverge_chain; [intros aw; exact I|]. intros done.
  apply noDiverge_chain.
  - unfold zip, zipWith. apply noDiverge_chain; [now apply noDiverge_fork|].
    intros L. apply noDiverge_map. now apply noDiverge_fork.
  - intros [L R]. unfold QIO.and.
    apply noDiverge_chain; [|intros _; apply noDiverge_get].
    apply noDiverge_chain; [|intros _].
    + apply noDiverge_fork.
      apply noDiverge_chain; [intros x; exact I|].
      intros [v|]; [apply noDiverge_set, H3 | exact I].
    + apply noDiverge_fork.
      apply noDiverge_chain; [intros x; exact I|].
      intros [v|]; [apply noDiverge_set, H4 | exact I].
Qed.

Lemma noDiverge_zipWithPar (this that : QIO Val) (c : Val -> Val -> Val) :
  noDiverge this -> noDiverge that -> noDiverge (zipWithPar this that c).
Proof.
  intros H1 H2. unfold zipWithPar.
  apply noDiverge_raceWith; auto; intros v F;
    destruct v; cbn [Either_biMap_reduce Either_fold]; try exact I;
    try (apply noDiverge_map, noDiverge_join); cbn; exact I.
Qed.

Lemma noDiverge_par (ios : list (QIO Val)) :
  (forall io, In io ios -> noDiverge io) -> noDiverge (par ios).
Proof.
  intros H. unfold par. apply noDiverge_map.
  assert (G : forall acc, noDiverge acc ->
              noDiverge (fold_left
                (fun a b => zipWithPar a b (fun x y => vprepend x y)) ios acc)).
  { induction ios as [|io ios IH]; intros acc Ha; [exact Ha|].
    cbn [fold_left]. apply IH.
    - intros x Hx. apply H. now right.
    - apply noDiverge_zipWithPar; [exact Ha | apply H; now left]. }
  apply G. cbn. intros r s. exact I.
Qed.

Lemma In_firstn_skipn {A} (x : A) :
  forall (n m : nat) (l : list A), In x (firstn n (skipn m l)) -> In x l.
Proof.
  assert (F : forall n (l : list A), In x (firstn n l) -> In x l).
  { induction n as [|n IH]; intros [|y l] H; cbn in *; try contradiction.
    destruct H as [H|H]; [now left | right; now apply IH]. }
  intros n m. revert n. induction m as [|m IH]; intros n l H.
  - apply (F n). exact H.
  - destruct l as [|y l]; cbn [skipn] in H.
    + apply (F n). exact H.
    + right. apply (IH n). exact H.
Qed.

Lemma In_slice {A} (start end_ : Z) (l : list A) (x : A) :
  In x (slice start end_ l) -> In x l.
Proof. unfold slice. apply In_firstn_skipn. Qed.

Lemma noDiverge_parChunks (cs : list (list (QIO Val))) (tail : QIO (list Val)) :
  (forall c io, In c cs -> In io c -> noDiverge io) -> noDiverge tail ->
  noDiverge (parChunks cs tail).
Proof.
  intros H Ht. induction cs as [|c cs IH]; [exact Ht|].
  cbn [parChunks]. apply noDiverge_chain.
  - apply noDiverge_par. intros io Hio. apply (H c); [now left | exact Hio].
  - intros l1. apply noDiverge_map. apply IH.
    intros c' io Hc Hio. apply (H c'); [now right | exact Hio].
Qed.

Lemma In_chunksOf {A} (N : Z) : forall (fuel : nat) (ios c : list A) (x : A),
  In c (chunksOf fuel N ios) -> In x c -> In x ios.
Proof.
  induction fuel as [|fuel IH]; intros ios c x Hc Hx; cbn [chunksOf] in Hc;
    destruct (length ios =? 0); try contradiction.
  - destruct Hc as [<-|[]]. eapply In_slice; exact Hx.
  - destruct Hc as [<-|Hc]; [eapply In_slice; exact Hx|].
    eapply In_slice. apply (IH _ _ _ Hc Hx).
Qed.

Lemma length_chunksOf {A} (N : Z) :
  (1 <= N)%Z ->
  forall (fuel : nat) (ios : list A),
    length (chunksOf fuel N ios) <= length ios.
Proof.
  intros H. induction fuel as [|fuel IH]; intros ios.
  - destruct ios; cbn; lia.
  - destruct ios as [|io ios]; [cbn; lia|].
    cbn [chunksOf length Nat.eqb].
    specialize (IH (itarRest N (io :: ios))).
    rewrite length_itarRest in IH by assumption. cbn [length] in IH. lia.
Qed.

(** ** Runs of the scheduler *)

Lemma run_add (a b : nat) (w : World) : run (a + b) w = run b (run a w).
Proof. revert w. induction a as [|a IH]; intros w; cbn; auto. Qed.

Lemma run_hung (n : nat) (w : World) : hung w = true -> run n w = w.
Proof.
  intros H. induction n as [|n IH]; [reflexivity|].
  cbn [run]. unfold tick. rewrite H. exact IH.
Qed.

Lemma setStore_id w : setStore (store w) w = w.
Proof. destruct w; reflexivity. Qed.

Lemma eval_par_nil (k : list Val -> QIO Val) f w :
  eval f (chain (par []) k) w = eval f (k []) w.
Proof. cbn. now rewrite setStore_id. Qed.

(** With [N = 0] the loop of [itar] runs within one turn of the
    scheduler and does not end. *)
Lemma eval_parN_zero : forall (fuel : nat) (ios : list (QIO Val))
  (k : list Val -> QIO Val) f w,
  ios <> [] -> eval f (chain (parN_itar fuel 0 ios) k) w = setHung w.
Proof.
  assert (Hc : forall ios : list (QIO Val), itarChunk 0 ios = []).
  { intros ios. unfold itarChunk, slice. cbn. reflexivity. }
  assert (Hr : forall ios : list (QIO Val), itarRest 0 ios = ios).
  { intros ios. unfold itarRest, slice.
    rewrite (@relIndex_nonneg (length ios) 0) by lia.
    rewrite (@relIndex_nonneg (length ios) (Z.of_nat (length ios))) by lia.
    rewrite Nat2Z.id, Nat.min_id. cbn [Z.to_nat Nat.min skipn].
    rewrite Nat.sub_0_r. apply firstn_all. }
  induction fuel as [|fuel IH]; intros ios k f w Hne.
  - cbn [parN_itar]. rewrite (length_pos Hne). cbn [if_].
    rewrite Hc, chain_assoc, eval_par_nil. reflexivity.
  - rewrite parN_itar_S. rewrite (length_pos Hne). cbn [if_].
    rewrite Hc, Hr, chain_assoc, eval_par_nil.
    unfold QIO.map. rewrite chain_assoc. apply IH. exact Hne.
Qed.

(** C10.  The recursion of [parN] is on the list handed to [itar].
    With [1 <= N] every call hands on a list shorter by [N] elements,
    so that [parN(N, ios)] is [par] of at most [ios.length] chunks, one
    after the other, ending in [QIO.of([])]; it loops nowhere if the
    effects of [ios] do not, and it runs to its end.  With [N <= 0] and
    a list that is not empty the recursion never reaches [QIO.of([])]:
    however deep it is unrolled, it is [par] of one chunk more, followed
    by the next call; with [N = 0] the run hangs in its first turn and
    the fiber stays pending. *)
Theorem C10_parN_terminates_iff_positive :
  forall (N : Z) (ios : list (QIO Val)),
    ((1 <= N)%Z ->
       length (itarRest N ios) = length ios - Z.to_nat N /\
       parN N ios = parChunks (chunksOf (length ios) N ios) (of_ []) /\
       length (chunksOf (length ios) N ios) <= length ios /\
       ((forall io, In io ios -> noDiverge io) -> noDiverge (parN N ios))) /\
    ((N <= 0)%Z -> ios <> [] ->
       (forall fuel,
          parN_itar fuel N ios = parChunks (chunksOf fuel N ios) Diverge /\
          length (chunksOf fuel N ios) = S fuel) /\
       (N = 0%Z ->
        forall n, statusOf 0 (runFresh n (parN N ios)) = Pending /\
                  (1 <= n -> hung (runFresh n (parN N ios)) = true))) /\
    (forall a b c : Val,
       unsafeRunSync 11 (parN 1 [of_ a; of_ b])
       = Completed (VRight (VArr [a; b])) /\
       unsafeRunSync 18 (parN 2 [of_ a; of_ b; of_ c])
       = Completed (VRight (VArr [a; b; c]))).
Proof.
  intros N ios. split; [|split].
  - intros H.
    assert (E : parN N ios = parChunks (chunksOf (length ios) N ios) (of_ [])).
    { unfold parN. apply parN_itar_unrolls; [assumption | apply Nat.le_refl]. }
    split; [|split; [|split]].
    + apply length_itarRest; assumption.
    + exact E.
    + apply length_chunksOf; assumption.
    + intros Hall. rewrite E. apply noDiverge_parChunks; [|exact I].
      intros c io Hc Hio. apply Hall. eapply In_chunksOf; eassumption.
  - intros H Hne. split.
    + intros fuel. apply parN_itar_stuck; assumption.
    + intros -> n.
      assert (H1 : hung (runFresh 1 (parN 0 ios)) = true /\
                   statusOf 0 (runFresh 1 (parN 0 ios)) = Pending).
      { unfold runFresh, unsafeRun, spawn, parN, QIO.map.
        remember (parN_itar (length ios) 0 ios) as p eqn:Hp.
        cbn -[eval]. subst p. rewrite eval_parN_zero by assumption.
        split; reflexivity. }
      destruct n as [|n]; [split; [reflexivity | lia]|].
      change (S n) with (1 + n). unfold runFresh in *. rewrite run_add.
      rewrite run_hung by apply H1. split; [apply H1 | intros _; apply H1].
  - intros a b c. split; vm_compute; reflexivity.
Qed.

(** The theorem at [N = 2] with three effects, and at [N = 0] with one. *)
Lemma C10_witness :
  ((1 <= 2)%Z /\
   length (itarRest 2 [of_ VUndef; of_ VUndef; of_ VUndef]) = 1 /\
   noDiverge (parN 2 [of_ VUndef; of_ VUndef; of_ VUndef])) /\
  ((0 <= 0)%Z /\ [of_ VUndef] <> [] /\
   statusOf 0 (runFresh 5 (parN 0 [of_ VUndef])) = Pending).
Proof.
  split.
  - split; [lia|].
    destruct (proj1 (C10_parN_terminates_iff_positive 2
                       [of_ VUndef; of_ VUndef; of_ VUndef]))
      as [H1 [_ [_ H4]]]; [lia|].
    split; [exact H1 | apply H4]. intros io Hio.
    destruct Hio as [<-|[<-|[<-|[]]]]; exact I.
  - split; [lia|]. split; [discriminate|].
    destruct (proj1 (proj2 (C10_parN_terminates_iff_positive 0 [of_ VUndef])))
      as [_ H2]; [lia | discriminate |].
    apply (H2 eq_refl 5).
Defined.

(** C9 (the code at the failing input).  [seq] of two effects that
    succeed with [a] and [b] resolves with [b, a], the reverse of the
    input order; [par] of the same effects resolves with [a, b]. *)
Theorem C9_seq_reverses_where_par_does_not :
  forall a b : Val,
    unsafeRunSync 1 (seq [of_ a; of_ b]) = Completed (VRight (VArr [b; a])) /\
    unsafeRunSync 30 (par [of_ a; of_ b]) = Completed (VRight (VArr [a; b])).
Proof. intros a b. split; vm_compute; reflexivity. Qed.

(** ** [once] *)

Lemma setNth_setNth {A} (n : nat) (x y : A) :
  forall l, setNth n x (setNth n y l) = setNth n x l.
Proof.
  induction n as [|n IH]; intros [|z l]; cbn; try reflexivity.
  now rewrite IH.
Qed.

Lemma nth_app_length {A} (l : list A) x d : nth (length l) (l ++ [x]) d = x.
Proof. induction l; cbn; auto. Qed.

Lemma setNth_app_length {A} (l : list A) x y :
  setNth (length l) y (l ++ [x]) = l ++ [y].
Proof. induction l; cbn; congruence. Qed.










(** C1.  Under the deterministic scheduler, with [da < db],
    [race(timeout(A, da), timeout(B, db))] succeeds with [A]; the fiber
    forked for the second effect (fiber 2: the second thunk the root
    fiber leaves with the scheduler starts it with that effect) ends
    [Aborted]; and nothing is left to run. *)
Theorem C1_race_determinism :
  forall (A B : Val) (da db : nat),
    da < db ->
    let p := race (timeout A da) (timeout B db) in
    (exists h, nth_error (asapQ (runFresh 1 p)) 1
               = Some (h, TEval 2 (map (provide (timeout B db) VUndef) toVal))) /\
    statusOf 0 (runFresh 13 p) = Completed (VRight A) /\
    statusOf 2 (runFresh 13 p) = Aborted /\
    idle (runFresh 13 p) = true.
Proof.
  intros A B da db H p. subst p. split.
  - eexists. vm_compute. reflexivity.
  - unfold runFresh. change 13 with (7 + 6). rewrite run_add.
    set (W := run 7 _). vm_compute in W.
    match eval cbv delta [W] in W with
    | context [match ?c with true => _ | false => _ end] =>
        assert (Hc : c = true)
          by (change (Nat.leb da db = true); apply Nat.leb_le; lia)
    end.
    unfold W; clear W; rewrite Hc.
    vm_compute. auto.
Qed.

Lemma C1_witness :
  1 < 2 /\
  statusOf 0 (runFresh 13 (race (timeout (VNum 7) 1) (timeout (VNum 8) 2)))
  = Completed (VRight (VNum 7)).
Proof.
  split; [lia|].
  apply (C1_race_determinism (VNum 7) (VNum 8) (da := 1) (db := 2)). lia.
Defined.

End QIOFacts.

(* ===================================================================== *)
(** * Facts: Queue                                                        *)
(* ===================================================================== *)

Module QueueFacts.

Import QIO Interp Obs QueueRuns QIOFacts.

Lemma length_setNth {A} n (x : A) l : length (setNth n x l) = length l.
Proof. revert n; induction l; destruct n; cbn; auto. Qed.

Lemma nth_setNth_eq {A} n (x : A) l d :
  n < length l -> nth n (setNth n x l) d = x.
Proof.
  revert n; induction l; destruct n; cbn; intros; try lia; auto.
  apply IHl; lia.
Qed.


Lemma setNth_overflow {A} n (x : A) l : length l <= n -> setNth n x l = l.
Proof.
  revert n; induction l; destruct n; cbn; intros; try lia; auto.
  f_equal. apply IHl. lia.
Qed.


Lemma defined_isUndefined (v : Val) :
  defined v = true -> Queue.isUndefined (Some v) = false.
Proof. unfold defined. now destruct (Queue.isUndefined (Some v)). Qed.

Section Q.
Variable c : N.
Let q := theQueue c.

(** ** What [take] and [offer] evaluate to *)

Lemma eval_take (k : Val -> QIO Val) f w is_ ts :
  store w = mkStore is_ ts ->
  eval f (chain (Queue.take q) k) w =
  if Queue.isUndefined (hd_error is_) then
    setStore (mkStore (tl is_) (ts ++ [{| awaitId := length (awaits w) |}]))
      (setAwaits
         (awaits w ++
          [{| flag := false; result := None; awaiting := [(f, takeK k)] |}])
         w)
  else
    eval f (k (Queue.orUndefined (hd_error is_)))
      (setStore (mkStore (tl is_) ts) w).
Proof.
  intros H. destruct is_ as [|x r]; [|destruct x];
    cbn -[getAwait putAwait]; rewrite H; cbn -[getAwait putAwait];
    try reflexivity;
    unfold getAwait; cbn; rewrite nth_app_length; cbn;
    unfold putAwait, setAwaits, setStore; cbn; rewrite setNth_app_length;
    reflexivity.
Qed.

Lemma eval_take_some (k : Val -> QIO Val) f w x r ts :
  store w = mkStore (x :: r) ts -> defined x = true ->
  eval f (chain (Queue.take q) k) w = eval f (k x) (setStore (mkStore r ts) w).
Proof.
  intros H Hx. rewrite (@eval_take k f w _ _ H). cbn [hd_error tl].
  now rewrite (defined_isUndefined _ Hx).
Qed.

Lemma eval_take_none (k : Val -> QIO Val) f w ts :
  store w = mkStore [] ts ->
  eval f (chain (Queue.take q) k) w =
  setStore (mkStore [] (ts ++ [{| awaitId := length (awaits w) |}]))
    (setAwaits
       (awaits w ++
        [{| flag := false; result := None; awaiting := [(f, takeK k)] |}])
       w).
Proof. intros H. now rewrite (@eval_take k f w _ _ H). Qed.

Lemma eval_take_undefined (k : Val -> QIO Val) f w r ts :
  store w = mkStore (VUndef :: r) ts ->
  eval f (chain (Queue.take q) k) w =
  setStore (mkStore r (ts ++ [{| awaitId := length (awaits w) |}]))
    (setAwaits
       (awaits w ++
        [{| flag := false; result := None; awaiting := [(f, takeK k)] |}])
       w).
Proof. intros H. now rewrite (@eval_take k f w _ _ H). Qed.

Lemma eval_itar a : forall ts lst (k : list (QIO bool) -> QIO Val) f w is_,
  store w = mkStore is_ ts ->
  eval f (chain (Queue.setAwaited_itar (length ts) q a lst) k) w =
  eval f (k (rev (List.map (setOf a) ts) ++ lst)) (setStore (mkStore is_ []) w).
Proof.
  induction ts as [|t ts IH]; intros lst k f w is_ H.
  - cbn. rewrite H. cbn. reflexivity.
  - cbn [length Queue.setAwaited_itar].
    cbn -[Queue.setAwaited_itar Await.set]. rewrite H.
    cbn -[Queue.setAwaited_itar Await.set].
    rewrite (IH _ _ _ _ is_) by reflexivity.
    cbn -[Await.set]. rewrite <- app_assoc. reflexivity.
Qed.

Lemma eval_set a aw (k : bool -> QIO Val) f w :
  exists b, eval f (chain (setOf a aw) k) w = eval f (k b) (deliver a w aw).
Proof.
  unfold setOf, deliver, Await.set, asEither, QIO.map, of_.
  cbn -[getAwait putAwait notify].
  destruct (flag (getAwait (awaitId aw) w)) eqn:E.
  - exists false. reflexivity.
  - exists true. f_equal. unfold toVal, ToVal_Val.
    destruct (Nat.lt_ge_cases (awaitId aw) (length (awaits w))) as [Hl|Hl].
    + unfold getAwait, putAwait. cbn -[notify].
      rewrite nth_setNth_eq by assumption. cbn -[notify].
      rewrite setNth_setNth. reflexivity.
    + unfold getAwait, putAwait. cbn -[notify].
      rewrite !setNth_overflow by assumption.
      rewrite !nth_overflow by assumption. reflexivity.
Qed.

Lemma runsTo_fold a f : forall aws acc Wf,
  runsTo f acc Wf ->
  runsTo f (fold_left seqStep (List.map (setOf a) aws) acc)
         (fun w => fold_left (deliver a) aws (Wf w)).
Proof.
  induction aws as [|aw aws IH]; intros acc Wf H.
  - exact H.
  - cbn [List.map fold_left].
    specialize (IH (seqStep acc (setOf a aw)) (fun w => deliver a (Wf w) aw)).
    cbn beta in IH. apply IH. clear IH.
    intros k w. unfold seqStep. rewrite chain_assoc.
    destruct (H (fun x => chain (QIO.map (setOf a aw)
                                   (fun value => ImmList.prepend x value)) k) w)
      as [l Hl].
    rewrite Hl. unfold QIO.map. rewrite chain_assoc.
    destruct (eval_set a aw (fun x => chain (Constant (ImmList.prepend l x)) k)
                f (Wf w)) as [b Hb].
    rewrite Hb. exists (ImmList.prepend l b). reflexivity.
Qed.

Lemma eval_seq_sets a aws (k : list bool -> QIO Val) f w :
  exists l, eval f (chain (seq (List.map (setOf a) aws)) k) w
            = eval f (k l) (fold_left (deliver a) aws w).
Proof.
  unfold seq. unfold QIO.map at 1. rewrite chain_assoc.
  assert (B : runsTo f (addEnv (lift (pure (@ImmList.empty bool))))
                (fun w => w)).
  { intros k' w'. exists ImmList.empty. cbn. now rewrite setStore_id. }
  destruct (@runsTo_fold a f aws _ _ B
              (fun x => chain (Constant (ImmList.asArray x)) k) w) as [l Hl].
  exists (ImmList.asArray l). exact Hl.
Qed.

Lemma notify_setStore exit s : forall ws w,
  notify exit ws (setStore s w) = setStore s (notify exit ws w).
Proof.
  unfold notify. induction ws as [|x ws IH]; intros w; cbn [fold_left];
    [reflexivity|].
  rewrite <- IH. reflexivity.
Qed.

Lemma deliver_setStore a s w aw :
  deliver a (setStore s w) aw = setStore s (deliver a w aw).
Proof.
  unfold deliver.
  change (getAwait (awaitId aw) (setStore s w)) with (getAwait (awaitId aw) w).
  destruct (flag (getAwait (awaitId aw) w)); [reflexivity|].
  change (putAwait (awaitId aw) ?x (setStore s w))
    with (setStore s (putAwait (awaitId aw) x w)).
  apply notify_setStore.
Qed.

Lemma fold_deliver_setStore a s : forall aws w,
  fold_left (deliver a) aws (setStore s w)
  = setStore s (fold_left (deliver a) aws w).
Proof.
  induction aws as [|x aws IH]; intros w; cbn [fold_left]; [reflexivity|].
  rewrite deliver_setStore. apply IH.
Qed.

Lemma isEmpty_snoc {A} (l : list A) x : ImmList.isEmpty (l ++ [x]) = false.
Proof. destruct l; reflexivity. Qed.

Lemma eval_offer a (k : PureMutableList.LinkedListNode Val -> QIO Val)
  f w is_ ts :
  store w = mkStore is_ ts ->
  eval f (chain (Queue.offer q a) k) w =
  eval f (k {| PureMutableList.value := a |})
    (setStore (mkStore (afterOffer is_ ts a) [])
       (fold_left (deliver a) (rev ts) w)).
Proof.
  intros H. unfold Queue.offer, tap, Queue.setAwaited.
  cbn -[Queue.setAwaited_itar seq]. rewrite H.
  cbn -[Queue.setAwaited_itar seq].
  rewrite !chain_assoc.
  match goal with |- eval f (chain ?p ?k0) ?w0 = _ =>
    rewrite (@eval_itar a ts ImmList.empty k0 f w0 (is_ ++ [a])) by reflexivity
  end.
  unfold ImmList.empty. rewrite !app_nil_r. unfold ImmList.asArray at 1.
  rewrite <- !map_rev.
  unfold tap, const, QIO.and. rewrite !chain_assoc.
  match goal with |- eval f (chain (seq _) ?k0) ?w0 = _ =>
    destruct (eval_seq_sets a (rev ts) k0 f w0) as [l Hl]; rewrite Hl
  end.
  rewrite !fold_deliver_setStore.
  destruct ts as [|t ts].
  - cbn. reflexivity.
  - cbn [rev]. rewrite map_app. cbn [List.map]. rewrite isEmpty_snoc.
    cbn -[deliver]. destruct (is_ ++ [a]) eqn:E.
    + destruct is_; discriminate.
    + cbn. reflexivity.
Qed.

(** ** What the clients keep true of the runtime *)















(** ** What a step leaves of the store and of the [Await]s *)

Lemma store_notify exit : forall ws w, store (notify exit ws w) = store w.
Proof.
  unfold notify. induction ws as [|x ws IH]; intros w; cbn [fold_left]; auto.
  rewrite IH. reflexivity.
Qed.

Lemma awaits_notify exit : forall ws w, awaits (notify exit ws w) = awaits w.
Proof.
  unfold notify. induction ws as [|x ws IH]; intros w; cbn [fold_left]; auto.
  rewrite IH. reflexivity.
Qed.



Lemma store_deliver a w aw : store (deliver a w aw) = store w.
Proof.
  unfold deliver. destruct (flag (getAwait (awaitId aw) w)); auto.
  now rewrite store_notify.
Qed.

Lemma store_fold_deliver a : forall aws w,
  store (fold_left (deliver a) aws w) = store w.
Proof.
  induction aws as [|x aws IH]; intros w; cbn [fold_left]; auto.
  rewrite IH. apply store_deliver.
Qed.

Lemma awaits_deliver a w x :
  awaits (deliver a w x) = awaits w \/
  (flag (getAwait (awaitId x) w) = false /\
   awaits (deliver a w x) =
   setNth (awaitId x)
     {| flag := true; result := Some (VRight a); awaiting := [] |} (awaits w)).
Proof.
  unfold deliver. destruct (flag (getAwait (awaitId x) w)) eqn:E; auto.
  right. split; auto. now rewrite awaits_notify.
Qed.

Lemma length_awaits_fold_deliver a : forall aws w,
  length (awaits (fold_left (deliver a) aws w)) = length (awaits w).
Proof.
  induction aws as [|x aws IH]; intros w; cbn [fold_left]; auto.
  rewrite IH. destruct (awaits_deliver a w x) as [->|[_ ->]]; auto.
  apply length_setNth.
Qed.

(** ** One turn of the scheduler on the first tick of a client *)











(** ** Statuses *)








(** ** The exits the takers are set to *)








End Q.





(** C6 (the code at the failing input).  After [offer(a)] and [offer(b)]
    of values other than [undefined], two takes return [a] then [b], and
    [takeN(2)] resolves with [b, a]: the value of the first take comes
    last. *)
Theorem C6_takeN_reverses :
  forall a b : Val,
    defined a = true -> defined b = true ->
    unsafeRunSync 1 (Obs.offerThenTakes a b)
      = Completed (VRight (VArr [a; b])) /\
    unsafeRunSync 1 (Obs.offerThenTakeN a b)
      = Completed (VRight (VArr [b; a])).
Proof.
  intros a b Ha Hb.
  destruct a; try discriminate Ha; destruct b; try discriminate Hb;
    split; vm_compute; reflexivity.
Qed.

Lemma C6_witness :
  defined (VNum 1) = true /\ defined (VNum 2) = true /\
  unsafeRunSync 1 (Obs.offerThenTakeN (VNum 1) (VNum 2))
  = Completed (VRight (VArr [VNum 2; VNum 1])).
Proof.
  split; [reflexivity|]. split; [reflexivity|].
  apply (@C6_takeN_reverses (VNum 1) (VNum 2)); reflexivity.
Defined.

End QueueFacts.
(* ===================================================================== *)
(** * Laws: Computation.fork                                              *)
(* ===================================================================== *)

Module ComputationLaws.

Import Computation ComputationRuns ComputationFacts.

Section Laws.

Variables E A : Type.

Lemma exec_app (cmp : Cmp E A) (evs1 evs2 : list (Event E A)) :
  exec cmp (evs1 ++ evs2) = fold_left (step cmp) evs2 (exec cmp evs1).
Proof. unfold exec. apply fold_left_app. Qed.

Lemma invoked_fold_callCancel (cs : list Cancel) :
  forall st : State E A,
    invoked (fold_left (@callCancel E A) cs st) = invoked st ++ cs.
Proof.
  induction cs as [|c cs IH]; intros st; cbn [fold_left].
  - now rewrite app_nil_r.
  - rewrite IH. cbn. now rewrite <- app_assoc.
Qed.

Lemma cancellations_fold_callCancel (cs : list Cancel) :
  forall st : State E A,
    cancellations (fold_left (@callCancel E A) cs st) = cancellations st.
Proof.
  induction cs as [|c cs IH]; intros st; cbn [fold_left]; [reflexivity|].
  now rewrite IH.
Qed.

Lemma task_fold_callCancel (cs : list Cancel) :
  forall st : State E A,
    task (fold_left (@callCancel E A) cs st) = Scheduled -> task st = Scheduled.
Proof.
  induction cs as [|c cs IH]; intros st H; cbn [fold_left] in H; [exact H|].
  apply IH in H. cbn in H. destruct c, (task st); congruence.
Qed.

Lemma status_invokeAll (cs : list (Call E A)) :
  forall st : State E A,
    status st <> FORKED -> status (invokeAll cs st) <> FORKED.
Proof.
  induction cs as [|c cs IH]; intros st H; [exact H|].
  change (status (invokeAll cs (invoke c st)) <> FORKED). apply IH.
  rewrite status_invoke. destruct c; discriminate.
Qed.

Lemma invokeAll_fields (cs : list (Call E A)) :
  forall st : State E A,
    cancellations (invokeAll cs st) = cancellations st /\
    task (invokeAll cs st) = task st /\
    invoked (invokeAll cs st) = invoked st.
Proof.
  induction cs as [|c cs IH]; intros st; [now repeat split|].
  change (invokeAll (c :: cs) st) with (invokeAll cs (invoke c st)).
  destruct (IH (invoke c st)) as (H1 & H2 & H3).
  rewrite H1, H2, H3. destruct c; now repeat split.
Qed.

Lemma asapBody_fields (cmp : Cmp E A) (st : State E A) :
  task (asapBody cmp st) = task st /\
  invoked (asapBody cmp st) = invoked st /\
  (status st <> FORKED -> status (asapBody cmp st) <> FORKED) /\
  (cancellations (asapBody cmp st) = cancellations st \/
   exists n, cancellations (asapBody cmp st) = cancellations st ++ [CmpCancel n]).
Proof.
  unfold asapBody.
  destruct (invokeAll_fields (calls cmp) st) as (H1 & H2 & H3).
  pose proof (@status_invokeAll (calls cmp) st) as H4.
  destruct (finish cmp) as [[n|]|e]; cbn; rewrite ?H1, ?H2, ?H3;
    repeat split; auto. right. now exists n.
Qed.

Lemma cancelInv_fork : cancelInv (@fork E A).
Proof.
  repeat split; cbn; auto. constructor; [intros []|constructor].
Qed.

Lemma cancelInv_step (cmp : Cmp E A) (st : State E A) (ev : Event E A) :
  cancelInv st -> cancelInv (step cmp st ev).
Proof.
  intros Hinv. pose proof Hinv as (Hc & Hn & Hi).
  destruct ev as [|c|]; cbn [step].
  - unfold tick. destruct (task st) eqn:Ht; try exact Hinv.
    set (st1 := Build_State _ _ _ _ _).
    destruct (asapBody_fields cmp st1) as (H1 & H2 & H3 & H4).
    split; [|split].
    + rewrite H1. cbn. discriminate.
    + destruct H4 as [H4|[n H4]]; rewrite H4; cbn; rewrite (Hc eq_refl).
      * constructor; [intros []|constructor].
      * constructor; [intros [H|[]]; discriminate|].
        constructor; [intros []|constructor].
    + rewrite H2. cbn. destruct Hi as [Hi|[Hi Hi']]; [now left|right].
      split; [apply H3; exact Hi | exact Hi'].
  - assert (Hf : cancellations (invoke c st) = cancellations st /\
                 task (invoke c st) = task st /\
                 invoked (invoke c st) = invoked st)
      by (destruct c; now repeat split).
    destruct Hf as (H1 & H2 & H3). unfold cancelInv. rewrite H1, H2, H3.
    split; [exact Hc|split; [exact Hn|]].
    destruct Hi as [Hi|[_ Hi]]; [now left | right; split; [|exact Hi]].
    rewrite status_invoke. destruct c; discriminate.
  - unfold cancel. destruct (status st) eqn:Hs; try exact Hinv.
    set (st1 := Build_State _ _ _ _ _).
    split; [|split].
    + intros H. apply task_fold_callCancel in H. cbn in H.
      rewrite cancellations_fold_callCancel. cbn. auto.
    + rewrite cancellations_fold_callCancel. exact Hn.
    + right. split.
      * rewrite status_fold_callCancel. cbn. discriminate.
      * rewrite invoked_fold_callCancel. cbn.
        destruct Hi as [Hi|[Hi _]]; [now rewrite Hi | congruence].
Qed.

Lemma cancelInv_exec (cmp : Cmp E A) (evs : list (Event E A)) :
  cancelInv (exec cmp evs).
Proof.
  induction evs as [|ev evs IH] using rev_ind.
  - apply cancelInv_fork.
  - rewrite exec_app. cbn [fold_left]. now apply cancelInv_step.
Qed.

(** X1.  Whatever the order of scheduler ticks, callback invocations and
    calls of the cancel function returned by [fork], no cancel function
    (the scheduler handle, the function [cmp] returned) is ever called
    twice. *)
Theorem cancel_calls_no_function_twice (cmp : Cmp E A)
  (evs : list (Event E A)) : NoDup (invoked (exec cmp evs)).
Proof.
  destruct (cancelInv_exec cmp evs) as (_ & _ & [H|[_ H]]).
  - rewrite H. constructor.
  - exact H.
Qed.

(** X2.  After any history, calling the cancel function returned by
    [fork] twice leaves the same state as calling it once. *)
Theorem cancel_twice_is_cancel_once (cmp : Cmp E A)
  (evs : list (Event E A)) :
  exec cmp (evs ++ [CancelEv; CancelEv]) = exec cmp (evs ++ [CancelEv]).
Proof.
  rewrite !exec_app. cbn [fold_left step]. apply cancel_idempotent.
Qed.

(** X3.  Cancelling before the scheduler reached the task unschedules it:
    whatever ticks and cancel calls follow, [cmp] never runs, nothing
    reaches the continuation, and the state is the one the first cancel
    left. *)
Theorem cancel_before_run_prevents_run (cmp : Cmp E A)
  (evs : list (Event E A)) :
  noInvoke evs = true ->
  exec cmp (CancelEv :: evs) = exec cmp [CancelEv] /\
  delivered (exec cmp (CancelEv :: evs)) = [] /\
  task (exec cmp (CancelEv :: evs)) = Unscheduled.
Proof.
  intros H.
  assert (Heq : exec cmp (CancelEv :: evs) = exec cmp [CancelEv]).
  { change (CancelEv :: evs) with ([@CancelEv E A] ++ evs). rewrite exec_app.
    induction evs as [|ev evs IH]; [reflexivity|].
    cbn [fold_left]. cbn [noInvoke forallb] in H.
    apply andb_prop in H. destruct H as [H1 H2].
    destruct ev as [|c|]; [now apply IH | discriminate | now apply IH]. }
  rewrite Heq. now repeat split.
Qed.

(** X4.  While the status is [FORKED], the cancel function calls every
    function registered in [cancellations], in registration order (the
    scheduler handle first), none of which had been called before, and
    sets the status to [CANCELLED]. *)
Theorem cancel_calls_all_registered (cmp : Cmp E A)
  (evs : list (Event E A)) :
  status (exec cmp evs) = FORKED ->
  invoked (exec cmp (evs ++ [CancelEv])) = cancellations (exec cmp evs) /\
  status (exec cmp (evs ++ [CancelEv])) = CANCELLED.
Proof.
  intros Hs. rewrite exec_app. cbn [fold_left step]. unfold cancel.
  rewrite Hs. rewrite invoked_fold_callCancel, status_fold_callCancel. cbn.
  split; [|reflexivity].
  destruct (cancelInv_exec cmp evs) as (_ & _ & [H|[H _]]);
    [now rewrite H | congruence].
Qed.

End Laws.

Lemma cancel_before_run_prevents_run_witness :
  noInvoke (E := nat) (A := nat) [Tick; CancelEv; Tick] = true /\
  delivered (exec resolvesTwice (CancelEv :: [Tick; CancelEv; Tick])) = [].
Proof.
  split; [reflexivity|].
  apply (@cancel_before_run_prevents_run nat nat resolvesTwice
           [Tick; CancelEv; Tick]).
  reflexivity.
Defined.

Lemma cancel_calls_all_registered_witness :
  status (exec (returnsCancel 3) [Tick]) = FORKED /\
  invoked (exec (returnsCancel 3) ([Tick] ++ [CancelEv]))
  = [AsapHandle; CmpCancel 3].
Proof.
  split; [reflexivity|].
  apply (@cancel_calls_all_registered nat nat (returnsCancel 3) [Tick]).
  reflexivity.
Defined.

End ComputationLaws.

(* ===================================================================== *)
(** * Laws: QIO                                                           *)
(* ===================================================================== *)

Module QIOLaws.

Import QIO QIOEnv Interp Obs QIOFacts Programs.

(** Induction on an effect, for equations between effects built by
    [chain], [catch] and [provide]. *)
Ltac tree_induction m :=
  induction m using QIO_induction; cbn;
  try reflexivity;
  try (match goal with IH : _ = _ |- _ => rewrite IH; reflexivity end);
  try (match goal with
       | cb : Store -> Store * QIO _, H : forall s : Store, _
         |- Try _ = Try _ =>
           f_equal; apply functional_extensionality; intros s;
           specialize (H s); destruct (cb s) as [s' q]; cbn in H |- *;
           rewrite H; reflexivity
       end);
  try (match goal with H : forall _, _ |- _ => apply H end);
  try (f_equal; apply functional_extensionality; intros ?;
       match goal with H : forall _, _ |- _ => apply H end).

(** ** [asEither], [catch], [provide], [map], [tap] *)

(** X5.  [asEither] followed by [fromEither] is the effect itself:
    [io.asEither.chain(QIO.fromEither) = io]. *)
Theorem asEither_fromEither_round_trip (m : QIO Val) :
  chain (asEither m) fromEither = m.
Proof. unfold asEither, QIO.map. tree_induction m. Qed.

(** X6.  [asEither] never fails: a handler installed around it is never
    used, [io.asEither.catch(h) = io.asEither]. *)
Theorem asEither_never_fails (m : QIO Val) (h : Val -> QIO Val) :
  catch (asEither m) h = asEither m.
Proof. unfold asEither, QIO.map. tree_induction m. Qed.

Lemma catch_reject_r {A} (m : QIO A) : catch m reject = m.
Proof. tree_induction m. Qed.

Lemma catch_assoc {A} (m : QIO A) (h1 h2 : Val -> QIO A) :
  catch (catch m h1) h2 = catch m (fun e => catch (h1 e) h2).
Proof. tree_induction m. Qed.

(** X7.  The laws of [catch]: rethrowing handler [QIO.reject] changes
    nothing; nested handlers compose, the outer one handling what the
    inner one fails with; and a failure skips what [chain] would do
    next and reaches the handler. *)
Theorem catch_laws :
  forall (A B : Type),
    (forall m : QIO A, catch m reject = m) /\
    (forall (m : QIO A) (h1 h2 : Val -> QIO A),
       catch (catch m h1) h2 = catch m (fun e => catch (h1 e) h2)) /\
    (forall (e : Val) (f : B -> QIO A) (h : Val -> QIO A),
       catch (chain (reject e) f) h = h e).
Proof.
  intros A B. split; [|split].
  - apply catch_reject_r.
  - apply catch_assoc.
  - reflexivity.
Qed.

Lemma provide_provide {A} (m : QIO A) (r1 r2 : Val) :
  provide (provide m r1) r2 = provide m r1.
Proof. tree_induction m. Qed.

Lemma provide_chain {A B} (m : QIO A) (f : A -> QIO B) (r : Val) :
  provide (chain m f) r = chain (provide m r) (fun a => provide (f a) r).
Proof. tree_induction m. Qed.

(** X8.  The laws of [provide]: the innermost environment wins; the
    environment reaches both sides of a [chain]; and [access] reads
    it. *)
Theorem provide_laws :
  forall (A B : Type),
    (forall (m : QIO A) (r1 r2 : Val),
       provide (provide m r1) r2 = provide m r1) /\
    (forall (m : QIO A) (f : A -> QIO B) (r : Val),
       provide (chain m f) r = chain (provide m r) (fun a => provide (f a) r)) /\
    (forall (cb : Val -> QIO A) (r : Val),
       provide (accessM cb) r = provide (cb r) r) /\
    (forall (m : QIO A) (r : Val), provide (addEnv m) r = provide m r).
Proof.
  intros A B. split; [|split; [|split]].
  - apply provide_provide.
  - apply provide_chain.
  - reflexivity.
  - reflexivity.
Qed.

(** X9.  [map] is a functor: mapping the identity changes nothing, and
    two maps are the map of the composition. *)
Theorem map_functor_laws :
  forall (A B C : Type) (m : QIO A) (f : A -> B) (g : B -> C),
    QIO.map m (fun x => x) = m /\
    QIO.map (QIO.map m f) g = QIO.map m (fun x => g (f x)).
Proof.
  intros A B C m f g. split.
  - apply chain_of_r.
  - unfold QIO.map. rewrite chain_assoc. reflexivity.
Qed.

(** X10.  [tap] and [do] with an effect that only succeeds leave the
    effect as it is: the value of the tapped effect is discarded. *)
Theorem tap_of_is_identity :
  forall (A B : Type) (m : QIO A) (g : A -> B) (b : B),
    tap m (fun x => of_ (g x)) = m /\ do m (of_ b) = m.
Proof.
  intros A B m g b. unfold tap, do, const, QIO.and, of_. cbn [chain].
  split; apply chain_of_r.
Qed.

(** X11.  The methods that narrow or fix the environment: under any
    outer environment [r0], [provideSome(fn)] runs the effect in
    [fn(r0)], and so do [provideM] and [provideSomeM] of an effect that
    computes [fn(r0)] from the environment; an effect made by [pipeEnv]
    keeps the environment it was given, whatever is provided later. *)
Theorem provide_variants :
  forall (A T : Type) (m : QIO A) (fn : Val -> Val) (r0 : Val),
    provide (provideSome m fn) r0 = provide m (fn r0) /\
    provide (provideM m (access fn)) r0 = provide m (fn r0) /\
    provide (provideSomeM m (access fn)) r0 = provide m (fn r0) /\
    forall (g : T -> QIO A) (R : Val) (t : T),
      provide (pipeEnv g R t) r0 = provide (g t) R.
Proof.
  intros A T m fn r0. unfold provideSome, provideM, provideSomeM, pipeEnv.
  cbn. rewrite provide_provide. repeat split.
  intros g R t. apply provide_provide.
Qed.

(** ** [seq] *)

Lemma seq_unfold {A} (ios : list (QIO A)) :
  seq ios
  = QIO.map (fold_left seqStepOf ios (addEnv (lift (pure ImmList.empty))))
            (fun x => ImmList.asArray x).
Proof. reflexivity. Qed.

Lemma fold_after_reject {A} (e : Val) (acc : QIO (list A)) :
  forall rest : list (QIO A),
    fold_left seqStepOf rest (chain acc (fun _ => Reject e))
    = chain acc (fun _ => Reject e).
Proof.
  induction rest as [|io rest IH]; cbn [fold_left]; [reflexivity|].
  unfold seqStepOf at 2. rewrite chain_assoc. cbn [chain]. exact IH.
Qed.

Lemma seq_stops_at_reject {A} (pre rest : list (QIO A)) (e : Val) :
  seq (pre ++ reject e :: rest) = seq (pre ++ [reject e]).
Proof.
  rewrite !seq_unfold. f_equal. rewrite !fold_left_app. cbn [fold_left].
  unfold seqStepOf at 2 4. unfold QIO.map, reject. cbn [chain].
  apply fold_after_reject.
Qed.

Lemma fold_values {A B} (vs : list A) :
  forall (acc : QIO (list A)) (k : list A -> QIO B),
    chain (fold_left seqStepOf (List.map of_ vs) acc) k
    = chain acc (fun l => k (rev vs ++ l)).
Proof.
  induction vs as [|v vs IH]; intros acc k; cbn [List.map fold_left rev].
  - reflexivity.
  - rewrite IH. unfold seqStepOf, QIO.map, of_. rewrite chain_assoc.
    cbn [chain]. f_equal. apply functional_extensionality. intros l.
    unfold ImmList.prepend. now rewrite <- app_assoc.
Qed.

Lemma eval_seq_values {A} (vs : list A) (k : list A -> QIO Val) f w :
  eval f (chain (seq (List.map of_ vs)) k) w = eval f (k (rev vs)) w.
Proof.
  rewrite seq_unfold. unfold QIO.map at 1. rewrite chain_assoc. cbn [chain].
  rewrite fold_values. cbn. rewrite app_nil_r.
  now rewrite setStore_id.
Qed.

Lemma eval_seq_rejected {A} (vs : list A) (e : Val) (rest : list (QIO A))
  (k : list A -> QIO Val) f w :
  eval f (chain (seq (List.map of_ vs ++ reject e :: rest)) k) w
  = complete f (VLeft e) w.
Proof.
  rewrite seq_stops_at_reject. rewrite seq_unfold. unfold QIO.map at 1.
  rewrite chain_assoc. rewrite fold_left_app. cbn [fold_left].
  unfold seqStepOf at 1. rewrite chain_assoc. rewrite fold_values.
  cbn. now rewrite setStore_id.
Qed.

(** X13.  [seq] evaluates nothing after an effect that is a failure: the
    effects listed after [QIO.reject(e)] can be dropped.  After effects
    that succeed, the failure [e] is the exit of the run, whatever comes
    after it in the list (effects that never end included). *)
Theorem seq_stops_at_first_failure :
  forall (A : Type) (pre rest : list (QIO A)) (e : Val),
    seq (pre ++ reject e :: rest) = seq (pre ++ [reject e]) /\
    forall (vs : list Val) (others : list (QIO Val)),
      unsafeRunSync 1 (seq (List.map of_ vs ++ reject e :: others))
      = Completed (VLeft e).
Proof.
  intros A pre rest e. split; [apply seq_stops_at_reject|].
  intros vs others. unfold unsafeRunSync, unsafeRun, spawn, QIO.map.
  remember (seq (List.map of_ vs ++ reject e :: others)) as p eqn:Hp.
  cbn -[eval]. subst p. rewrite eval_seq_rejected. reflexivity.
Qed.

(** X14.  [seq] of any number of effects that succeed resolves with
    their values in the reverse of the order of the list: the fold
    prepends each value and the result is [asArray] of the list built,
    with no [reverse]. *)
Theorem seq_resolves_in_reverse :
  forall (vs : list Val),
    (forall (k : list Val -> QIO Val) (f : nat) (w : World),
       eval f (chain (seq (List.map of_ vs)) k) w = eval f (k (rev vs)) w) /\
    unsafeRunSync 1 (seq (List.map of_ vs))
    = Completed (VRight (VArr (rev vs))).
Proof.
  intros vs. split; [intros k f w; apply eval_seq_values|].
  unfold unsafeRunSync, unsafeRun, spawn. cbn -[seq List.map eval].
  unfold QIO.map. rewrite eval_seq_values. reflexivity.
Qed.

(** ** [parN] *)

Lemma slice_prefix {A} (N : Z) (l : list A) :
  (0 <= N)%Z -> itarChunk N l = firstn (Z.to_nat N) l.
Proof.
  intros H. unfold itarChunk, slice.
  rewrite (@relIndex_nonneg (length l) 0) by lia.
  rewrite (@relIndex_nonneg (length l) N) by lia.
  cbn [Z.to_nat Nat.min skipn]. rewrite Nat.sub_0_r.
  destruct (Nat.le_gt_cases (Z.to_nat N) (length l)).
  - now rewrite Nat.min_l.
  - rewrite Nat.min_r by lia. rewrite !firstn_all2 by lia. reflexivity.
Qed.

Lemma slice_suffix {A} (N : Z) (l : list A) :
  (0 <= N)%Z -> itarRest N l = skipn (Z.to_nat N) l.
Proof.
  intros H. unfold itarRest, slice.
  rewrite (@relIndex_nonneg (length l) (Z.of_nat (length l))) by lia.
  rewrite (@relIndex_nonneg (length l) N) by lia.
  rewrite Nat2Z.id, Nat.min_id.
  destruct (Nat.le_gt_cases (Z.to_nat N) (length l)).
  - rewrite Nat.min_l by assumption. apply firstn_all2.
    rewrite length_skipn. lia.
  - rewrite Nat.min_r by lia. rewrite Nat.sub_diag. cbn.
    symmetry. apply skipn_all2. lia.
Qed.

Lemma chunk_rest {A} (N : Z) (l : list A) :
  (0 <= N)%Z ->
  itarChunk N l ++ itarRest N l = l /\
  length (itarChunk N l) = Nat.min (Z.to_nat N) (length l).
Proof.
  intros H. rewrite slice_prefix, slice_suffix by assumption.
  split; [apply firstn_skipn | apply length_firstn].
Qed.

(** X15.  With at least as many slots as effects, [parN] is [par]:
    [QIO.parN(N, ios) = QIO.par(ios)] when [ios] is not empty and
    [ios.length <= N]. *)
Theorem parN_within_bound_is_par (N : Z) (ios : list (QIO Val)) :
  0 < length ios -> (Z.of_nat (length ios) <= N)%Z -> parN N ios = par ios.
Proof.
  intros Hne Hl. unfold parN. destruct ios as [|io ios]; [cbn in Hne; lia|].
  cbn [length]. rewrite parN_itar_S. cbn [length Nat.eqb if_].
  assert (Hc : itarChunk N (io :: ios) = io :: ios).
  { rewrite slice_prefix by lia. apply firstn_all2. cbn [length] in *. lia. }
  assert (Hr : itarRest N (io :: ios) = []).
  { rewrite slice_suffix by lia. apply skipn_all2. cbn [length] in *. lia. }
  rewrite Hc, Hr, parN_itar_nil. unfold QIO.map at 1, of_. cbn [chain].
  rewrite <- (chain_of_r (par (io :: ios))) at 2. f_equal.
  apply functional_extensionality. intros l1. now rewrite app_nil_r.
Qed.

Lemma parN_within_bound_is_par_witness :
  0 < length [of_ (VNum 1); of_ (VNum 2)] /\
  parN 2 [of_ (VNum 1); of_ (VNum 2)] = par [of_ (VNum 1); of_ (VNum 2)].
Proof.
  split; [cbn; lia|].
  apply (@parN_within_bound_is_par 2 [of_ (VNum 1); of_ (VNum 2)]);
    cbn; lia.
Defined.

(** X16.  The chunks [parN] hands to [par], one per call of [itar], are
    a partition of the input: concatenated in order they give the list
    back, and none is longer than [N]. *)
Theorem parN_chunks_partition {A} (N : Z) (k : nat) (ios : list A) :
  (1 <= N)%Z -> length ios <= k ->
  concat (List.map (fun i => itarChunk N (itarArgs i N ios)) (List.seq 0 k))
  = ios /\
  forall i, length (itarChunk N (itarArgs i N ios)) <= Z.to_nat N.
Proof.
  intros H Hl. split.
  - revert ios Hl. induction k as [|k IH]; intros ios Hl.
    + destruct ios; [reflexivity | cbn in Hl; lia].
    + cbn [List.seq List.map concat itarArgs].
      rewrite <- seq_shift, List.map_map. cbn [itarArgs]. rewrite IH.
      * apply chunk_rest. lia.
      * rewrite length_itarRest by assumption. lia.
  - intros i. destruct (@chunk_rest A N (itarArgs i N ios)) as [_ E]; [lia|].
    rewrite E. apply Nat.le_min_l.
Qed.

Lemma parN_chunks_partition_witness :
  (1 <= 2)%Z /\ length [1; 2; 3] <= 3 /\
  concat (List.map (fun i => itarChunk 2 (itarArgs i 2 [1; 2; 3]))
                   (List.seq 0 3))
  = [1; 2; 3].
Proof.
  split; [lia|split; [cbn; lia|]].
  apply (@parN_chunks_partition nat 2 3 [1; 2; 3]); cbn; lia.
Defined.

(** ** Runs on the scheduler *)

Lemma run_fixed (n : nat) (w : World) : tick w = w -> run n w = w.
Proof.
  intros H. induction n as [|n IH]; [reflexivity|].
  cbn [run]. rewrite H. exact IH.
Qed.

(** X17.  [QIO.timeout(v, d)] succeeds with [v], and not before the
    clock of the scheduler has reached [d]: at no turn is its fiber
    completed with anything else, or completed while the clock is
    before [d]. *)
Theorem timeout_not_before_its_duration :
  forall (v : Val) (d : nat),
    let p := timeout v d in
    (exists n, statusOf 0 (runFresh n p) = Completed (VRight v)) /\
    (forall n exit,
       statusOf 0 (runFresh n p) = Completed exit ->
       exit = VRight v /\ d <= now (runFresh n p)).
Proof.
  intros v d p. subst p. split.
  - exists 4. vm_compute. reflexivity.
  - intros n exit.
    destruct n as [|[|[|[|n]]]]; try (vm_compute; discriminate).
    change (S (S (S (S n)))) with (4 + n). unfold runFresh.
    rewrite run_add. rewrite run_fixed by (vm_compute; reflexivity).
    vm_compute. intros H. injection H as <-. split; [reflexivity|].
    apply Nat.le_refl.
Qed.

(** X18.  With [db < da], [race(timeout(A, da), timeout(B, db))]
    succeeds with [B]; the fiber forked for the first effect (fiber 1:
    the first thunk the root fiber leaves with the scheduler starts it
    with that effect, and it is pending then) ends [Aborted]; and
    nothing is left to run: the delayed thunk of the loser is cancelled,
    not waited for. *)
Theorem race_right_wins_when_sooner :
  forall (A B : Val) (da db : nat),
    db < da ->
    let p := race (timeout A da) (timeout B db) in
    (exists h, nth_error (asapQ (runFresh 1 p)) 0
               = Some (h, TEval 1 (QIO.map (provide (timeout A da) VUndef)
                                           toVal))) /\
    statusOf 1 (runFresh 1 p) = Pending /\
    statusOf 0 (runFresh 13 p) = Completed (VRight B) /\
    statusOf 1 (runFresh 13 p) = Aborted /\
    idle (runFresh 13 p) = true.
Proof.
  intros A B da db H p. subst p. split; [|split].
  - eexists. vm_compute. reflexivity.
  - vm_compute. reflexivity.
  - unfold runFresh. change 13 with (7 + 6). rewrite run_add.
    set (W := run 7 _). vm_compute in W.
    match eval cbv delta [W] in W with
    | context [match ?c with true => _ | false => _ end] =>
        assert (Hc : c = false)
          by (change (Nat.leb da db = false); apply Nat.leb_gt; lia)
    end.
    unfold W; clear W; rewrite Hc. vm_compute. auto.
Qed.

Lemma race_right_wins_when_sooner_witness :
  1 < 2 /\
  statusOf 0 (runFresh 13 (race (timeout (VNum 7) 2) (timeout (VNum 8) 1)))
  = Completed (VRight (VNum 8)).
Proof.
  split; [lia|].
  apply (race_right_wins_when_sooner (VNum 7) (VNum 8) (da := 2) (db := 1)).
  lia.
Defined.

(** X19.  The first exit wins a race, a failure included:
    [race(reject(e), timeout(B, d))] fails with [e]; the fiber forked
    for the second effect (fiber 2, started with that effect and pending
    then) ends [Aborted], and nothing is left to run. *)
Theorem race_failure_wins :
  forall (e B : Val) (d : nat),
    let p := race (reject e) (timeout B d) in
    (exists h, nth_error (asapQ (runFresh 1 p)) 1
               = Some (h, TEval 2 (QIO.map (provide (timeout B d) VUndef)
                                           toVal))) /\
    statusOf 2 (runFresh 1 p) = Pending /\
    statusOf 0 (runFresh 9 p) = Completed (VLeft e) /\
    statusOf 2 (runFresh 9 p) = Aborted /\
    idle (runFresh 9 p) = true.
Proof.
  intros e B d p. subst p. split; [|split].
  - eexists. vm_compute. reflexivity.
  - vm_compute. reflexivity.
  - vm_compute. auto.
Qed.

(** X20.  [zipWithPar] runs both effects, each in a fiber of its own,
    and combines the two results in the order of its arguments,
    whichever effect ends first:
    [timeout(A, da).zipWithPar(timeout(B, db), c)] succeeds with
    [c(A, B)], for all delays [da] and [db]. *)
Theorem zipWithPar_keeps_argument_order :
  forall (A B : Val) (da db : nat) (c : Val -> Val -> Val),
    let w := runFresh 16 (zipWithPar (timeout A da) (timeout B db) c) in
    statusOf 0 w = Completed (VRight (c A B)) /\
    statusOf 1 w = Completed (VRight A) /\
    statusOf 2 w = Completed (VRight B) /\
    idle w = true.
Proof.
  intros A B da db c. cbv zeta. unfold runFresh.
  change 16 with (7 + 9). rewrite run_add.
  set (W := run 7 _). vm_compute in W.
  match eval cbv delta [W] in W with
  | context [match ?c with true => _ | false => _ end] =>
      destruct c
  end; unfold W; clear W; vm_compute; auto.
Qed.

(** X21.  A failure of either side of [zipWithPar] is the failure of the
    whole, and the other side (a fiber started with that effect and
    pending then) is aborted, not waited for: nothing is left to run. *)
Theorem zipWithPar_failure_aborts_sibling :
  forall (e B : Val) (d : nat) (c : Val -> Val -> Val),
    let l := zipWithPar (reject e) (timeout B d) c in
    let r := zipWithPar (timeout B d) (reject e) c in
    ((exists h, nth_error (asapQ (runFresh 1 l)) 1
                = Some (h, TEval 2 (QIO.map (provide (timeout B d) VUndef)
                                            toVal))) /\
     statusOf 2 (runFresh 1 l) = Pending /\
     statusOf 0 (runFresh 9 l) = Completed (VLeft e) /\
     statusOf 2 (runFresh 9 l) = Aborted /\
     idle (runFresh 9 l) = true) /\
    ((exists h, nth_error (asapQ (runFresh 1 r)) 0
                = Some (h, TEval 1 (QIO.map (provide (timeout B d) VUndef)
                                            toVal))) /\
     statusOf 1 (runFresh 1 r) = Pending /\
     statusOf 0 (runFresh 9 r) = Completed (VLeft e) /\
     statusOf 1 (runFresh 9 r) = Aborted /\
     idle (runFresh 9 r) = true).
Proof.
  intros e B d c. cbv zeta. split; (split; [|split]);
    try (eexists; vm_compute; reflexivity);
    try (vm_compute; reflexivity); vm_compute; auto.
Qed.

(** X22.  A forked effect runs in the environment of the effect that
    forked it: under [provide(r)], the fiber of [QIO.access(cb).fork]
    succeeds with [cb(r)], and so does the join. *)
Theorem fork_inherits_environment :
  forall (cb : Val -> Val) (r : Val),
    let w := runFresh 3 (provide (forkJoin (access cb)) r) in
    statusOf 1 w = Completed (VRight (cb r)) /\
    statusOf 0 w = Completed (VRight (cb r)) /\ idle w = true.
Proof. intros cb r. vm_compute. auto. Qed.

End QIOLaws.

(* ===================================================================== *)
(** * Laws: Queue                                                         *)
(* ===================================================================== *)

Module QueueLaws.

Import QIO Interp Obs QIOFacts QueueRuns QueueFacts Programs.

Section Q.

Variable c : N.
Let q := theQueue c.

(** X23.  With no taker waiting, [offer(a)] followed by [take] returns
    the oldest stored item ([a] itself when nothing was stored), when
    that item is not [undefined]; the rest stays stored in order, [a]
    last. *)
Theorem offer_then_take_returns_oldest (a : Val) (k : Val -> QIO Val)
  (f : nat) (w : World) (is_ : list Val) :
  store w = mkStore is_ [] ->
  defined (hd a is_) = true ->
  eval f (chain (Queue.offer q a) (fun _ => chain (Queue.take q) k)) w
  = eval f (k (hd a is_)) (setStore (mkStore (tl (is_ ++ [a])) []) w).
Proof.
  intros H Hd. rewrite (eval_offer c a _ f w H). cbn [rev fold_left afterOffer].
  cbv beta. unfold q.
  destruct is_ as [|x r]; cbn [app hd tl] in *.
  - erewrite eval_take_some by (reflexivity || exact Hd). reflexivity.
  - erewrite eval_take_some by (reflexivity || exact Hd). reflexivity.
Qed.

(** X29.  [take] tests the oldest item against [undefined]: a stored
    [undefined] is removed from the queue like any item, but is not
    returned; the take then waits as a new taker, behind the takers
    already waiting, as it does on an empty queue. *)
Theorem take_of_stored_undefined_waits (k : Val -> QIO Val)
  (f : nat) (w : World) (r : list Val) (ts : list Await) :
  store w = mkStore (VUndef :: r) ts ->
  eval f (chain (Queue.take q) k) w
  = setStore (mkStore r (ts ++ [{| awaitId := length (awaits w) |}]))
      (setAwaits
         (awaits w ++
          [{| flag := false; result := None; awaiting := [(f, takeK k)] |}])
         w).
Proof. apply eval_take_undefined. Qed.

Lemma fold_offers f : forall (vs : list Val) acc done,
  (forall (k : _ -> QIO Val) w is_, store w = mkStore is_ [] ->
     eval f (chain acc k) w
     = eval f (k (rev (List.map nodeOf done)))
         (setStore (mkStore (is_ ++ done) []) w)) ->
  forall (k : _ -> QIO Val) w is_, store w = mkStore is_ [] ->
    eval f (chain (fold_left seqStepOf (List.map (Queue.offer q) vs) acc) k) w
    = eval f (k (rev (List.map nodeOf (done ++ vs))))
        (setStore (mkStore (is_ ++ done ++ vs) []) w).
Proof.
  induction vs as [|v vs IH]; intros acc done Hacc k w is_ Hs.
  - cbn [List.map fold_left]. rewrite !app_nil_r. now apply Hacc.
  - cbn [List.map fold_left].
    replace (done ++ v :: vs) with ((done ++ [v]) ++ vs)
      by now rewrite <- app_assoc.
    apply IH; [|exact Hs]. clear k w is_ Hs. intros k w is_ Hs.
    unfold seqStepOf, q. rewrite chain_assoc. rewrite (Hacc _ w is_ Hs).
    unfold QIO.map. rewrite chain_assoc.
    erewrite eval_offer by reflexivity.
    cbn [rev fold_left afterOffer chain]. unfold ImmList.prepend.
    rewrite List.map_app, rev_app_distr. cbn [List.map rev app].
    now rewrite <- app_assoc.
Qed.

Lemma eval_offerAll (vs : list Val)
  (k : list (PureMutableList.LinkedListNode Val) -> QIO Val) f w is_ :
  store w = mkStore is_ [] ->
  eval f (chain (Queue.offerAll q vs) k) w
  = eval f (k (rev (List.map nodeOf vs)))
      (setStore (mkStore (is_ ++ vs) []) w).
Proof.
  intros Hs. unfold Queue.offerAll.
  change (seq (List.map (fun x => Queue.offer q x) vs))
    with (QIO.map (fold_left seqStepOf (List.map (Queue.offer q) vs)
                     (addEnv (lift (pure ImmList.empty))))
                  (fun x => ImmList.asArray x)).
  unfold QIO.map at 1. rewrite chain_assoc.
  apply (@fold_offers f vs _ []); [|exact Hs].
  clear. intros k w is_ Hs. cbn. rewrite app_nil_r, <- Hs. reflexivity.
Qed.

(** X24.  With no taker waiting, [offerAll(...vs)] stores the values
    after the items already stored, in the order given; it resolves with
    the inserted nodes in reverse order (it is a [QIO.seq]). *)
Theorem offerAll_appends_in_order (vs : list Val)
  (k : list (PureMutableList.LinkedListNode Val) -> QIO Val)
  (f : nat) (w : World) (is_ : list Val) :
  store w = mkStore is_ [] ->
  eval f (chain (Queue.offerAll q vs) k) w
  = eval f (k (rev (List.map nodeOf vs)))
      (setStore (mkStore (is_ ++ vs) []) w).
Proof. apply eval_offerAll. Qed.

Lemma eval_takeN_itar f ts :
  forall fuel n i lst (k : list Val -> QIO Val) w is_,
    store w = mkStore is_ ts -> i + fuel = n -> fuel <= length is_ ->
    forallb defined (firstn fuel is_) = true ->
    eval f (chain (Queue.takeN_itar fuel q n i lst) k) w
    = eval f (k (rev (firstn fuel is_) ++ lst))
        (setStore (mkStore (skipn fuel is_) ts) w).
Proof.
  induction fuel as [|fuel IH]; intros n i lst k w is_ Hs Hn Hl Hd.
  - cbn [Queue.takeN_itar]. replace (i =? n) with true
      by (symmetry; apply Nat.eqb_eq; lia).
    cbn. now rewrite <- Hs, setStore_id.
  - cbn [Queue.takeN_itar]. replace (i =? n) with false
      by (symmetry; apply Nat.eqb_neq; lia).
    cbn [if_]. rewrite chain_assoc. unfold q.
    destruct is_ as [|x r]; [cbn in Hl; lia|].
    cbn [firstn forallb] in Hd. apply andb_prop in Hd as [Hx Hr].
    rewrite (@eval_take_some c _ f w x r ts Hs Hx).
    erewrite IH; [|reflexivity|lia|cbn in Hl; lia|exact Hr].
    cbn [firstn skipn rev]. unfold ImmList.prepend.
    now rewrite <- app_assoc.
Qed.

Lemma eval_takeN n (k : list Val -> QIO Val) f w is_ ts :
  store w = mkStore is_ ts -> n <= length is_ ->
  forallb defined (firstn n is_) = true ->
  eval f (chain (Queue.takeN q n) k) w
  = eval f (k (rev (firstn n is_))) (setStore (mkStore (skipn n is_) ts) w).
Proof.
  intros Hs Hl Hd. unfold Queue.takeN, QIO.map. rewrite chain_assoc.
  rewrite (@eval_takeN_itar f ts n n 0 ImmList.empty _ w is_ Hs eq_refl Hl Hd).
  cbn [chain]. unfold ImmList.empty, ImmList.asArray. now rewrite app_nil_r.
Qed.

(** X25.  [takeN(n)] on a queue that stores at least [n] items, none
    of the [n] oldest being [undefined], removes the [n] oldest and
    resolves with them newest first (the reverse of the order in which
    they were taken); the other items and the takers are left as they
    were. *)
Theorem takeN_returns_oldest_reversed (n : nat) (k : list Val -> QIO Val)
  (f : nat) (w : World) (is_ : list Val) (ts : list Await) :
  store w = mkStore is_ ts -> n <= length is_ ->
  forallb defined (firstn n is_) = true ->
  eval f (chain (Queue.takeN q n) k) w
  = eval f (k (rev (firstn n is_))) (setStore (mkStore (skipn n is_) ts) w).
Proof. apply eval_takeN. Qed.

(** X26.  On an empty queue with no taker, [offerAll(...vs)] followed by
    [takeN(vs.length)], for values none of which is [undefined],
    resolves with [vs] reversed and leaves the queue as it was. *)
Theorem offerAll_then_takeN (vs : list Val) (k : list Val -> QIO Val)
  (f : nat) (w : World) :
  store w = mkStore [] [] ->
  forallb defined vs = true ->
  eval f (chain (Queue.offerAll q vs)
            (fun _ => chain (Queue.takeN q (length vs)) k)) w
  = eval f (k (rev vs)) w.
Proof.
  intros Hs Hd. rewrite (eval_offerAll vs _ f w Hs). cbn [app]. cbv beta.
  erewrite eval_takeN;
    [|reflexivity|apply le_n|rewrite firstn_all; exact Hd].
  rewrite firstn_all, skipn_all.
  replace (setStore _ (setStore _ w)) with (setStore (store w) w)
    by (rewrite Hs; reflexivity).
  now rewrite setStore_id.
Qed.

Lemma eval_takeN_itar_short f ts :
  forall fuel n i lst (k : list Val -> QIO Val) w is_,
    store w = mkStore is_ ts -> i + fuel = n -> length is_ < fuel ->
    forallb defined is_ = true ->
    exists K,
      eval f (chain (Queue.takeN_itar fuel q n i lst) k) w
      = setStore (mkStore [] (ts ++ [{| awaitId := length (awaits w) |}]))
          (setAwaits
             (awaits w ++
              [{| flag := false; result := None; awaiting := [(f, K)] |}])
             w).
Proof.
  induction fuel as [|fuel IH]; intros n i lst k w is_ Hs Hn Hl Hd; [lia|].
  cbn [Queue.takeN_itar]. replace (i =? n) with false
      by (symmetry; apply Nat.eqb_neq; lia).
  cbn [if_]. rewrite chain_assoc. unfold q.
  destruct is_ as [|x r].
  - eexists. rewrite (@eval_take_none c _ f w ts Hs). reflexivity.
  - cbn [forallb] in Hd. apply andb_prop in Hd as [Hx Hr].
    rewrite (@eval_take_some c _ f w x r ts Hs Hx).
    edestruct (IH n (i + 1) (ImmList.prepend lst x) k
                 (setStore (mkStore r ts) w) r eq_refl) as [K HK];
      [lia|cbn in Hl; lia|exact Hr|].
    exists K. exact HK.
Qed.

(** X27.  [takeN(n)] on a queue that stores fewer than [n] items, none
    of them [undefined], removes every stored item and then waits as
    one more taker, behind the takers already waiting: the fiber does
    not complete, and the items it removed are no longer in the
    queue. *)
Theorem takeN_short_of_items_waits (n : nat) (k : list Val -> QIO Val)
  (f : nat) (w : World) (is_ : list Val) (ts : list Await) :
  store w = mkStore is_ ts -> length is_ < n ->
  forallb defined is_ = true ->
  exists K,
    eval f (chain (Queue.takeN q n) k) w
    = setStore (mkStore [] (ts ++ [{| awaitId := length (awaits w) |}]))
        (setAwaits
           (awaits w ++
            [{| flag := false; result := None; awaiting := [(f, K)] |}])
           w).
Proof.
  intros Hs Hl Hd. unfold Queue.takeN, QIO.map. rewrite chain_assoc.
  apply (@eval_takeN_itar_short f ts n n 0 _ _ w is_ Hs eq_refl Hl Hd).
Qed.

(** X28.  A take that waits on an empty queue is completed by the next
    offer with the offered value, which does not stay in the queue; the
    offer completes too, and nothing is left to run. *)
Theorem waiting_take_is_served_by_offer (a : Val) :
  let w := reached c (takeThenOffer a) in
  statusOf 1 (reached c [Issue CTake; Turn]) = Pending /\
  statusOf 1 w = Completed (VRight a) /\
  statusOf 2 w = Completed (VRight a) /\
  items q w = [] /\ takers q w = [] /\ idle w = true.
Proof. vm_compute. auto 10. Qed.

(** X30.  One offer serves every taker that waits: after two takes
    that wait on an empty queue, a single [offer(a)] completes both
    takes with [a]; the offer completes too, no taker is left and [a]
    does not stay in the queue. *)
Theorem offer_completes_every_waiting_take (a : Val) :
  let w0 := reached c [Issue CTake; Issue CTake; Turn; Turn] in
  let w := reached c (twoTakesThenOffer a) in
  (statusOf 1 w0 = Pending /\ statusOf 2 w0 = Pending /\
   length (takers q w0) = 2) /\
  statusOf 1 w = Completed (VRight a) /\
  statusOf 2 w = Completed (VRight a) /\
  statusOf 3 w = Completed (VRight a) /\
  items q w = [] /\ takers q w = [] /\ idle w = true.
Proof. vm_compute. auto 10. Qed.

End Q.

Lemma offer_then_take_returns_oldest_witness :
  let w := reached 5 twoStored in
  store w = mkStore [VNum 1; VNum 2] [] /\
  eval 0 (chain (Queue.offer (theQueue 5) (VNum 3))
            (fun _ => chain (Queue.take (theQueue 5)) (fun x => Constant x))) w
  = eval 0 (Constant (VNum 1))
      (setStore (mkStore [VNum 2; VNum 3] []) w).
Proof.
  cbv zeta. split; [reflexivity|].
  apply (@offer_then_take_returns_oldest 5 (VNum 3) (fun x => Constant x) 0
           (reached 5 twoStored) [VNum 1; VNum 2]); reflexivity.
Defined.

Lemma take_of_stored_undefined_waits_witness :
  let w := reached 5 undefinedStored in
  store w = mkStore [VUndef] [] /\
  eval 0 (chain (Queue.take (theQueue 5)) (fun x => Constant x)) w
  = setStore (mkStore [] ([] ++ [{| awaitId := length (awaits w) |}]))
      (setAwaits
         (awaits w ++
          [{| flag := false; result := None;
              awaiting := [(0, takeK (fun x => Constant x))] |}])
         w).
Proof.
  cbv zeta. split; [reflexivity|].
  apply (@take_of_stored_undefined_waits 5 (fun x => Constant x) 0
           (reached 5 undefinedStored) [] []).
  reflexivity.
Defined.

Lemma offerAll_appends_in_order_witness :
  let w := reached 5 twoStored in
  store w = mkStore [VNum 1; VNum 2] [] /\
  eval 0 (chain (Queue.offerAll (theQueue 5) [VNum 3; VNum 4])
            (fun _ => Constant VUndef)) w
  = eval 0 (Constant VUndef)
      (setStore (mkStore [VNum 1; VNum 2; VNum 3; VNum 4] []) w).
Proof.
  cbv zeta. split; [reflexivity|].
  apply (@offerAll_appends_in_order 5 [VNum 3; VNum 4]
           (fun _ => Constant VUndef) 0 (reached 5 twoStored)
           [VNum 1; VNum 2]).
  reflexivity.
Defined.

Lemma takeN_returns_oldest_reversed_witness :
  let w := reached 5 twoStored in
  store w = mkStore [VNum 1; VNum 2] [] /\ 2 <= length [VNum 1; VNum 2] /\
  eval 0 (chain (Queue.takeN (theQueue 5) 2) (fun l => Constant (VArr l))) w
  = eval 0 (Constant (VArr [VNum 2; VNum 1])) (setStore (mkStore [] []) w).
Proof.
  cbv zeta. split; [reflexivity|split; [cbn; lia|]].
  apply (@takeN_returns_oldest_reversed 5 2 (fun l => Constant (VArr l)) 0
           (reached 5 twoStored) [VNum 1; VNum 2] []);
    [reflexivity | cbn; lia | reflexivity].
Defined.

Lemma offerAll_then_takeN_witness :
  store (created 5) = mkStore [] [] /\
  eval 0 (chain (Queue.offerAll (theQueue 5) [VNum 1; VNum 2])
            (fun _ => chain (Queue.takeN (theQueue 5) 2)
                        (fun l => Constant (VArr l)))) (created 5)
  = eval 0 (Constant (VArr [VNum 2; VNum 1])) (created 5).
Proof.
  split; [reflexivity|].
  apply (@offerAll_then_takeN 5 [VNum 1; VNum 2]
           (fun l => Constant (VArr l)) 0 (created 5)); reflexivity.
Defined.

Lemma takeN_short_of_items_waits_witness :
  let w := reached 5 twoStored in
  store w = mkStore [VNum 1; VNum 2] [] /\ length [VNum 1; VNum 2] < 3 /\
  exists K,
    eval 0 (chain (Queue.takeN (theQueue 5) 3) (fun l => Constant (VArr l))) w
    = setStore (mkStore [] ([] ++ [{| awaitId := length (awaits w) |}]))
        (setAwaits
           (awaits w ++
            [{| flag := false; result := None; awaiting := [(0, K)] |}])
           w).
Proof.
  cbv zeta. split; [reflexivity|split; [cbn; lia|]].
  apply (@takeN_short_of_items_waits 5 3 (fun l => Constant (VArr l)) 0
           (reached 5 twoStored) [VNum 1; VNum 2] []);
    [reflexivity | cbn; lia | reflexivity].
Defined.

End QueueLaws.
